(** * SCOTUS concurrence matrix: the preprocessing script and the browser engine

    Shallow embedding of [scripts/preprocess.js] (the delimited-text reader
    [parseCSV]/[parseCSVLine], the canonicalizer [processData], the display
    name rule [formatJusticeName]) and of [scotus/app.js] ([filterCases],
    [getAllJusticesInRange], [getActiveJustices], [calculateConcurrence] and
    the scale range computed at the head of [renderMatrix]).

    Conventions.
    - A JavaScript string is a [string]; a character is one code unit below
      256.
    - A JavaScript number holding an integer (terms, vote codes, counters) is
      a [Z]; the embedding is exact below 2^53.
    - An agreement rate [agreed / total] is the exact rational [Q]; the
      machine quotient is its correctly rounded value, and rounding is monotone
      and fixes 0 and 1, so the bounds proved here carry over.
    - A [Map], and the own properties of a plain object, are a [gmap]. A
      plain object also inherits the standard properties of
      [Object.prototype]: a read of such a name that is not an own property
      yields the inherited value, and an assignment of a number or a text to
      the name [__proto__] stores nothing. *)

From Stdlib Require Import Ascii QArith Qminmax.
From stdpp Require Import gmap strings list fin_maps sorting.

Local Open Scope Z_scope.

(** ** Built-in operations of the language *)

Module JS.

(** [WhiteSpace] and [LineTerminator] code units below 256: TAB, LF, VT, FF,
    CR, SP and NBSP. *)
Definition isWhiteSpace (c : ascii) : bool :=
  let n := nat_of_ascii c in
  bool_decide (n = 9 ∨ n = 10 ∨ n = 11 ∨ n = 12 ∨ n = 13 ∨ n = 32 ∨ n = 160)%nat.

Fixpoint trimStart (s : string) : string :=
  match s with
  | String c rest => if isWhiteSpace c then trimStart rest else s
  | EmptyString => EmptyString
  end.

Fixpoint trimEnd (s : string) : string :=
  match s with
  | String c rest =>
      match trimEnd rest with
      | EmptyString => if isWhiteSpace c then EmptyString else String c EmptyString
      | r => String c r
      end
  | EmptyString => EmptyString
  end.

(** [String.prototype.trim] *)
Definition trim (s : string) : string := trimStart (trimEnd s).

Definition isDigit (c : ascii) : bool :=
  let n := nat_of_ascii c in bool_decide (48 ≤ n ≤ 57)%nat.
Definition isUpper (c : ascii) : bool :=
  let n := nat_of_ascii c in bool_decide (65 ≤ n ≤ 90)%nat.
Definition isLower (c : ascii) : bool :=
  let n := nat_of_ascii c in bool_decide (97 ≤ n ≤ 122)%nat.

Definition digitValue (c : ascii) : Z := Z.of_nat (nat_of_ascii c) - 48.

(** The longest prefix of decimal digits, read left to right; [None] when
    there is no digit at all. *)
Fixpoint parseDigits (s : string) (acc : option Z) : option Z :=
  match s with
  | String c rest =>
      if isDigit c
      then parseDigits rest (Some (10 * default 0 acc + digitValue c))
      else acc
  | EmptyString => acc
  end.

(** [parseInt(s, 10)]: leading white space is skipped, one sign is read,
    then the longest digit prefix; [None] is NaN. *)
Definition parseInt (s : string) : option Z :=
  match trimStart s with
  | String "-"%char rest => Z.opp <$> parseDigits rest None
  | String "+"%char rest => parseDigits rest None
  | t => parseDigits t None
  end.

(** [parseInt(x, 10)] for a property that may be absent: [undefined]
    converts to the text "undefined", which has no digit. *)
Definition parseIntProp (x : option string) : option Z := x ≫= parseInt.

(** [!x] for a property holding a string or absent. *)
Definition falsy (x : option string) : bool :=
  match x with
  | Some (String _ _) => false
  | _ => true
  end.

(** [content.split(/\r?\n/)]: a line ends at each LF; one CR directly
    before that LF belongs to the separator. The result is never empty. *)
Fixpoint splitLines (s : string) (current : string) : list string :=
  match s with
  | String c rest =>
      if bool_decide (c = "010"%char) then current :: splitLines rest EmptyString
      else
        match rest with
        | String c' rest' =>
            if bool_decide (c = "013"%char) && bool_decide (c' = "010"%char)
            then current :: splitLines rest' EmptyString
            else splitLines rest (current +:+ String c EmptyString)
        | EmptyString => splitLines rest (current +:+ String c EmptyString)
        end
  | EmptyString => [current]
  end.

(** *** Plain objects

    The names that every plain object inherits from [Object.prototype]. Each
    of them holds a function, except [__proto__], which is the accessor of
    the prototype; all of these values are truthy. *)
Definition objectPrototypeNames : list string :=
  [ "constructor"; "__defineGetter__"; "__defineSetter__"; "hasOwnProperty";
    "__lookupGetter__"; "__lookupSetter__"; "isPrototypeOf";
    "propertyIsEnumerable"; "toString"; "valueOf"; "__proto__";
    "toLocaleString" ].

(** [obj[key] = value] on a plain object, for a [value] that is a number or
    a text: under the name [__proto__] the assignment reaches the accessor,
    which ignores such a value; under any other name the value becomes an
    own property. *)
Definition setProperty {V} (key : string) (value : V) (obj : gmap string V)
    : gmap string V :=
  if bool_decide (key = "__proto__") then obj else <[key := value]> obj.

(** *** [String.prototype.localeCompare]

    The comparison is the one of the sort keys of the root collation,
    restricted to code units below 128: a primary level that orders digits
    before letters and ignores letter case, then a level on which a
    lower-case letter precedes its upper-case form. It is exact on
    identifiers made of letters and digits; other characters are kept below
    the digits in code order. *)
Definition toLower (c : ascii) : ascii :=
  if isUpper c then ascii_of_nat (nat_of_ascii c + 32) else c.

Definition primaryWeight (c : ascii) : nat :=
  if isDigit c then 1000 + nat_of_ascii c
  else if isUpper c || isLower c then 2000 + nat_of_ascii (toLower c)
  else 1 + nat_of_ascii c.

Definition caseWeight (c : ascii) : nat := if isUpper c then 2 else 1.

Fixpoint weights (w : ascii → nat) (s : string) : list nat :=
  match s with
  | String c rest => w c :: weights w rest
  | EmptyString => []
  end.

Definition sortKey (s : string) : list nat :=
  weights primaryWeight s ++ 0%nat :: weights caseWeight s.

Fixpoint lexCompare (a b : list nat) : comparison :=
  match a, b with
  | [], [] => Eq
  | [], _ :: _ => Lt
  | _ :: _, [] => Gt
  | x :: a', y :: b' =>
      match Nat.compare x y with
      | Eq => lexCompare a' b'
      | o => o
      end
  end.

Definition localeCompare (a b : string) : Z :=
  match lexCompare (sortKey a) (sortKey b) with
  | Lt => -1
  | Eq => 0
  | Gt => 1
  end.

End JS.

(** ** The preprocessing script *)

Module Preprocess.
Import JS.

(** Appointing party by justice identifier. *)
Definition JUSTICE_PARTY : gmap string string :=
  list_to_map [
    ("JJay", "F"); ("JRutledge", "F"); ("WCushing", "F"); ("JWilson", "F");
    ("JBlair", "F"); ("JIredell", "F"); ("TJohnson", "F"); ("WPaterson", "F");
    ("SChase", "F"); ("OEllsworth", "F"); ("BWashington", "F"); ("AMoore", "F");
    ("JMarshall", "F"); ("WJohnson", "DR"); ("HBLivingston", "DR"); ("TTodd", "DR");
    ("GDuvall", "DR"); ("JStory", "DR"); ("SThompson", "DR"); ("RTrimble", "DR");
    ("JMcLean", "D"); ("HBaldwin", "D"); ("JMWayne", "D"); ("RBTaney", "D");
    ("PPBarbour", "D"); ("JCatron", "D"); ("JMcKinley", "D"); ("PVDaniel", "D");
    ("SNelson", "W"); ("LWoodbury", "D"); ("RCGrier", "D"); ("BRCurtis", "W");
    ("JACampbell", "D"); ("NClifford", "D"); ("NHSwayne", "R"); ("SFMiller", "R");
    ("DDavis", "R"); ("SJField", "R"); ("SPChase", "R"); ("WStrong", "R");
    ("JPBradley", "R"); ("WHunt", "R"); ("MRWaite", "R"); ("JHarlan1", "R");
    ("WBWoods", "R"); ("SMatthews", "R"); ("HGray", "R"); ("SBlatchford", "R");
    ("LQCLamar", "D"); ("MWFuller", "D"); ("DJBrewer", "R"); ("HBBrown", "R");
    ("GShiras", "R"); ("HEJackson", "R"); ("EDWhite", "D"); ("RWPeckham", "D");
    ("JMcKenna", "R"); ("OWHolmes", "R"); ("WRDay", "R"); ("WHMoody", "R");
    ("HHLurton", "R"); ("CEHughes", "R"); ("WVanDevanter", "R"); ("JRLamar", "R");
    ("MPitney", "R"); ("JCMcReynolds", "D"); ("LDBrandeis", "D"); ("JHClarke", "D");
    ("WHTaft", "R"); ("GSutherland", "R"); ("PButler", "R"); ("ETSanford", "R");
    ("HFStone", "R"); ("OJRoberts", "R"); ("BNCardozo", "R"); ("HLBlack", "D");
    ("SFReed", "D"); ("FFrankfurter", "D"); ("WODouglas", "D"); ("FMurphy", "D");
    ("JFByrnes", "D"); ("RHJackson", "D"); ("WBRutledge", "D"); ("HHBurton", "D");
    ("FMVinson", "D"); ("TCClark", "D"); ("SMinton", "D"); ("EWarren", "R");
    ("JHarlan2", "R"); ("WJBrennan", "R"); ("CEWhittaker", "R"); ("PStewart", "R");
    ("BRWhite", "D"); ("AJGoldberg", "D"); ("AFortas", "D"); ("TMarshall", "D");
    ("WEBurger", "R"); ("HBlackmun", "R"); ("LFPowell", "R"); ("WHRehnquist", "R");
    ("JPStevens", "R"); ("SDOConnor", "R"); ("AScalia", "R"); ("AMKennedy", "R");
    ("DHSouter", "R"); ("CThomas", "R"); ("RBGinsburg", "D"); ("SGBreyer", "D");
    ("SBreyer", "D"); ("JGRoberts", "R"); ("SAAlito", "R"); ("SSotomayor", "D");
    ("EKagan", "D"); ("NMGorsuch", "R"); ("BMKavanaugh", "R"); ("ACBarrett", "R");
    ("KBJackson", "D"); ("SOConnor", "R"); ("JRutledge2", "F"); ("LQLamar", "D");
    ("EDEWhite", "D"); ("CEHughes1", "R"); ("CEHughes2", "R"); ("HABlackmun", "R") ].

(** A parsed row: header name to field text. *)
Abbreviation Row := (gmap string string).

Definition quote : ascii := ascii_of_nat 34.
Definition comma : ascii := ascii_of_nat 44.

(** The character loop of [parseCSVLine]: [values], [current] and
    [inQuotes] are the three locals; the look-ahead on a quote inside a
    quoted field consumes two characters. *)
Fixpoint parseCSVLine_loop (line : string) (values : list string)
    (current : string) (inQuotes : bool) : list string :=
  match line with
  | String char rest =>
      if bool_decide (char = quote) then
        match inQuotes, rest with
        | true, String next rest' =>
            if bool_decide (next = quote)
            then parseCSVLine_loop rest' values (current +:+ String quote EmptyString) inQuotes
            else parseCSVLine_loop rest values current (negb inQuotes)
        | _, _ => parseCSVLine_loop rest values current (negb inQuotes)
        end
      else if bool_decide (char = comma) && negb inQuotes then
        parseCSVLine_loop rest (values ++ [trim current]) EmptyString inQuotes
      else parseCSVLine_loop rest values (current +:+ String char EmptyString) inQuotes
  | EmptyString => values ++ [trim current]
  end.

Definition parseCSVLine (line : string) : list string :=
  parseCSVLine_loop line [] EmptyString false.

(** [row[headers[j]] = values[j]] for [j] below [headers.length]. *)
Definition makeRow (headers values : list string) : Row :=
  foldl (λ row hv, setProperty hv.1 hv.2 row) ∅ (zip headers values).

(** The line loop of [parseCSV], from [lines[1]] on; [rows] is the
    accumulator that [rows.push] extends. *)
Fixpoint parseCSV_loop (headers : list string) (lines : list string)
    (rows : list Row) : list Row :=
  match lines with
  | l :: rest =>
      let line := trim l in
      if bool_decide (line = EmptyString) then parseCSV_loop headers rest rows
      else
        let values := parseCSVLine line in
        if bool_decide (length values ≠ length headers)
        then parseCSV_loop headers rest rows
        else parseCSV_loop headers rest (rows ++ [makeRow headers values])
  | [] => rows
  end.

Definition parseCSV (content : string) : list Row :=
  match splitLines content EmptyString with
  | [] => []
  | first :: rest => parseCSV_loop (parseCSVLine first) rest []
  end.

(** *** [formatJusticeName]

    The pattern [^([A-Z]+)([A-Z][a-z]+)(\d?)$] has at most one match: the
    text is a run of at least two capitals, a non-empty run of lower-case
    letters and an optional final digit; the last capital starts the
    surname. *)
Fixpoint splitLast (s : string) : option (string * ascii) :=
  match s with
  | String c rest =>
      match splitLast rest with
      | Some (b, l) => Some (String c b, l)
      | None => Some (EmptyString, c)
      end
  | EmptyString => None
  end.

Fixpoint spanUpper (s : string) : string * string :=
  match s with
  | String c rest =>
      if isUpper c then let '(u, r) := spanUpper rest in (String c u, r)
      else (EmptyString, s)
  | EmptyString => (EmptyString, EmptyString)
  end.

Fixpoint allLower (s : string) : bool :=
  match s with
  | String c rest => isLower c && allLower rest
  | EmptyString => true
  end.

(** The three groups of the match, when there is one. *)
Definition matchJusticeName (s : string) : option (string * string * string) :=
  let '(body, digit) :=
    match splitLast s with
    | Some (b, l) => if isDigit l then (b, String l EmptyString) else (s, EmptyString)
    | None => (s, EmptyString)
    end in
  let '(uppers, lowers) := spanUpper body in
  match splitLast uppers, lowers with
  | Some (String i0 more, cap), String _ _ =>
      if allLower lowers
      then Some (String i0 more, String cap lowers, digit)
      else None
  | _, _ => None
  end.

(** [initials.split('').join('.') + '.'] *)
Fixpoint dotted (initials : string) : string :=
  match initials with
  | String c rest => String c (String "."%char (dotted rest))
  | EmptyString => EmptyString
  end.

Definition formatJusticeName (justiceName : string) : string :=
  match matchJusticeName justiceName with
  | Some (initials, lastName, digit) =>
      let suffix :=
        match digit with
        | EmptyString => EmptyString
        | _ => " (" +:+ (if bool_decide (digit = "1") then "I" else "II") +:+ ")"
        end in
      dotted initials +:+ " " +:+ lastName +:+ suffix
  | None => justiceName
  end.

(** *** [processData] *)

(** A value of the [cases] map. *)
Record CaseEntry := { term : Z; votes : gmap string Z }.

(** What [JUSTICE_PARTY[justiceName]] can hold: a code of the table, or the
    value inherited from [Object.prototype] under that name. *)
Inductive PartyValue :=
  | partyCode (code : string)
  | inheritedProperty (name : string).

(** [JUSTICE_PARTY[justiceName] || null]; [None] is [null]. *)
Definition partyOf (justiceName : string) : option PartyValue :=
  match JUSTICE_PARTY !! justiceName with
  | Some code =>
      if bool_decide (code = EmptyString) then None else Some (partyCode code)
  | None =>
      if bool_decide (justiceName ∈ objectPrototypeNames)
      then Some (inheritedProperty justiceName)
      else None
  end.

(** A value of the [justices] map. *)
Record JusticeEntry :=
  { name : string; firstTerm : Z; lastTerm : Z; party : option PartyValue }.

(** The two maps the loop fills. *)
Record State :=
  { cases : gmap string CaseEntry; justices : gmap string JusticeEntry }.

(** The four locals read from a row. *)
Definition caseIdOf (row : Row) : option string := row !! "caseId".
Definition termOf (row : Row) : option Z := parseIntProp (row !! "term").
Definition justiceNameOf (row : Row) : option string := row !! "justiceName".
Definition majorityOf (row : Row) : option Z := parseIntProp (row !! "majority").

(** The fields of a row that passes both guards. *)
Definition accepted (row : Row) : option (string * Z * string * Z) :=
  match caseIdOf row, termOf row, justiceNameOf row, majorityOf row with
  | Some caseId, Some term, Some justiceName, Some majority =>
      if falsy (Some caseId) || falsy (Some justiceName) then None
      else if bool_decide (majority ≠ 1) && bool_decide (majority ≠ 2) then None
      else Some (caseId, term, justiceName, majority)
  | _, _, _, _ => None
  end.

(** [cases.has] / [cases.set] / [cases.get(caseId).votes[justiceName] = majority] *)
Definition upsertCase (caseId : string) (term0 : Z) (justiceName : string)
    (majority : Z) (cs : gmap string CaseEntry) : gmap string CaseEntry :=
  let cs1 :=
    match cs !! caseId with
    | Some _ => cs
    | None => <[caseId := {| term := term0; votes := ∅ |}]> cs
    end in
  alter (λ c, {| term := term c; votes := setProperty justiceName majority (votes c) |})
    caseId cs1.

(** [justices.has] / [justices.set] / the update of [firstTerm], [lastTerm] *)
Definition upsertJustice (justiceName : string) (term0 : Z)
    (js : gmap string JusticeEntry) : gmap string JusticeEntry :=
  match js !! justiceName with
  | None =>
      <[justiceName := {| name := formatJusticeName justiceName;
                          firstTerm := term0;
                          lastTerm := term0;
                          party := partyOf justiceName |}]> js
  | Some _ =>
      alter (λ justice, {| name := name justice;
                           firstTerm := Z.min (firstTerm justice) term0;
                           lastTerm := Z.max (lastTerm justice) term0;
                           party := party justice |})
        justiceName js
  end.

(** One turn of the loop over the rows. *)
Definition processRow (st : State) (row : Row) : State :=
  match accepted row with
  | None => st
  | Some (caseId, term0, justiceName, majority) =>
      {| cases := upsertCase caseId term0 justiceName majority (cases st);
         justices := upsertJustice justiceName term0 (justices st) |}
  end.

Definition emptyState : State := {| cases := ∅; justices := ∅ |}.

Definition processData (rows : list Row) : State :=
  foldl processRow emptyState rows.

End Preprocess.

(** ** The browser engine *)

Module App.
Import JS.

(** An element of [data.cases]. *)
Record Case := { id : string; term : Z; votes : gmap string Z }.

(** A value of [data.justices]. *)
Record JusticeInfo :=
  { name : string; firstTerm : Z; lastTerm : Z; party : option string }.

(** The loaded artifact, as far as the engine reads it. *)
Record Dataset :=
  { cases : list Case; justices : gmap string JusticeInfo }.

(** [data.cases.filter(c => c.term >= yearStart && c.term <= yearEnd)] *)
Definition filterCases (data : Dataset) (yearStart yearEnd : Z) : list Case :=
  filter (λ c, yearStart ≤ term c ∧ term c ≤ yearEnd) (cases data).

(** [Object.keys(c.votes)]: each key once. *)
Definition keys (vs : gmap string Z) : list string := (map_to_list vs).*1.

(** A [Set] of strings in insertion order; [add] keeps the place of a
    member already present. *)
Definition setAdd (s : list string) (x : string) : list string :=
  if decide (x ∈ s) then s else s ++ [x].

Definition justiceSet (cs : list Case) : list string :=
  foldl (λ s c, foldl setAdd s (keys (votes c))) [] cs.

(** [data.justices[a]?.firstTerm || 0] *)
Definition firstTermOf (data : Dataset) (a : string) : Z :=
  match justices data !! a with
  | Some info => firstTerm info
  | None => 0
  end.

(** The comparator handed to [sort]. *)
Definition compareJustices (data : Dataset) (a b : string) : Z :=
  let aFirst := firstTermOf data a in
  let bFirst := firstTermOf data b in
  if bool_decide (aFirst ≠ bFirst) then aFirst - bFirst
  else localeCompare a b.

(** [a] may stand before [b] in the sorted array. *)
Definition precedes (data : Dataset) (a b : string) : Prop :=
  compareJustices data a b ≤ 0.

#[global] Instance precedes_dec data a b : Decision (precedes data a b).
Proof. unfold precedes. apply _. Defined.

(** [Array.from(justiceSet).sort(...)]: a merge sort by the comparator. *)
Definition getAllJusticesInRange (data : Dataset) (cs : list Case) : list string :=
  merge_sort (precedes data) (justiceSet cs).

(** [selectedJustices] is [null] (all) or a set. *)
Definition getActiveJustices (data : Dataset) (selectedJustices : option (gset string))
    (cs : list Case) : list string :=
  let allJustices := getAllJusticesInRange data cs in
  match selectedJustices with
  | None => allJustices
  | Some sel => filter (λ j, j ∈ sel) allJustices
  end.

(** [info?.name || justiceId] *)
Definition formatJusticeName (data : Dataset) (justiceId : string) : string :=
  match justices data !! justiceId with
  | Some info => if bool_decide (name info = EmptyString) then justiceId else name info
  | None => justiceId
  end.

(** *** [calculateConcurrence] *)

(** A matrix cell; [rate] is [None] for [null]. The last pass of
    [calculateConcurrence] assigns [rate] in every cell. *)
Record Cell := { agreed : Z; total : Z; rate : option Q }.

Abbreviation Matrix := (list (list Cell)).

Definition cellAt (matrix : Matrix) (i j : nat) : option Cell :=
  matrix !! i ≫= (.!! j).

(** [new Map(justices.map((j, i) => [j, i]))]: a later entry replaces an
    earlier one with the same key. *)
Definition justiceIndexOf (justices : list string) : gmap string nat :=
  foldl (λ m e, <[e.1 := e.2]> m) ∅ (imap (λ i j, (j, i)) justices).

Definition initMatrix (n : nat) : Matrix :=
  replicate n (replicate n {| agreed := 0; total := 0; rate := None |}).

(** [matrix[i][j].total++] and [matrix[i][j].agreed++] *)
Definition incTotal (c : Cell) : Cell :=
  {| agreed := agreed c; total := total c + 1; rate := rate c |}.
Definition incAgreed (c : Cell) : Cell :=
  {| agreed := agreed c + 1; total := total c; rate := rate c |}.
Definition update (f : Cell → Cell) (i j : nat) (matrix : Matrix) : Matrix :=
  alter (alter f j) i matrix.

(** The body of the inner loop for the voters [vi] and [vj]. Both are keys
    of [justiceIndex], so the first branch is the one taken. *)
Definition countPair (justiceIndex : gmap string nat) (c : Case)
    (vi vj : string) (matrix : Matrix) : Matrix :=
  match justiceIndex !! vi, justiceIndex !! vj with
  | Some ji, Some jj =>
      let voteI := votes c !! vi in
      let voteJ := votes c !! vj in
      let m1 := update incTotal jj ji (update incTotal ji jj matrix) in
      if bool_decide (voteI = voteJ)
      then update incAgreed jj ji (update incAgreed ji jj m1)
      else m1
  | _, _ => matrix
  end.

(** The two nested loops over [voters]: [i] runs over the array, [j] from
    [i] to its end. *)
Fixpoint countVoters (justiceIndex : gmap string nat) (c : Case)
    (voters : list string) (matrix : Matrix) : Matrix :=
  match voters with
  | vi :: rest =>
      countVoters justiceIndex c rest
        (foldl (λ m vj, countPair justiceIndex c vi vj m) matrix (vi :: rest))
  | [] => matrix
  end.

(** [Object.keys(c.votes).filter(j => justiceIndex.has(j))] *)
Definition votersOf (justiceIndex : gmap string nat) (c : Case) : list string :=
  filter (λ j, is_Some (justiceIndex !! j)) (keys (votes c)).

Definition countCase (justiceIndex : gmap string nat) (matrix : Matrix)
    (c : Case) : Matrix :=
  countVoters justiceIndex c (votersOf justiceIndex c) matrix.

(** [cell.rate = cell.total > 0 ? cell.agreed / cell.total : null] *)
Definition setRate (c : Cell) : Cell :=
  {| agreed := agreed c;
     total := total c;
     rate := if bool_decide (0 < total c)
             then Some (Qmake (agreed c) (Z.to_pos (total c)))
             else None |}.

Definition calculateConcurrence (cs : list Case) (justices : list string) : Matrix :=
  let n := length justices in
  let justiceIndex := justiceIndexOf justices in
  let counted := foldl (countCase justiceIndex) (initMatrix n) cs in
  (λ row : list Cell, setRate <$> row) <$> counted.

(** *** The scale range in [renderMatrix] *)

(** One cell of the scan: it takes part when it is off the diagonal, its
    rate is not [null] and its total reaches [minCases]. *)
Definition scanCell (matrix : Matrix) (minCases : Z) (i : nat)
    (range : Q * Q) (j : nat) : Q * Q :=
  match cellAt matrix i j with
  | Some cell =>
      match rate cell with
      | Some r =>
          if bool_decide (i ≠ j) && bool_decide (minCases ≤ total cell)
          then (Qmin range.1 r, Qmax range.2 r)
          else range
      | None => range
      end
  | None => range
  end.

(** [let minRate = 1, maxRate = 0] and the two loops over the indices. *)
Definition scaleRange (matrix : Matrix) (n : nat) (minCases : Z) : Q * Q :=
  foldl (λ range i, foldl (scanCell matrix minCases i) range (seq 0 n))
    (1%Q, 0%Q) (seq 0 n).

(** The filter state of the page. *)
Record Filter :=
  { yearStart : Z; yearEnd : Z;
    selectedJustices : option (gset string); minCases : Z }.

(** What [renderMatrix] computes before it draws. [range] is [None] when
    the function returns early with its message for an empty justice list;
    otherwise it is the pair given to the color scale and to
    [updateLegend]. *)
Record View :=
  { members : list string; matrix : Matrix; range : option (Q * Q) }.

Definition renderMatrix (data : Dataset) (flt : Filter) : View :=
  let cs := filterCases data (yearStart flt) (yearEnd flt) in
  let justices := getActiveJustices data (selectedJustices flt) cs in
  let matrix := calculateConcurrence cs justices in
  {| members := justices;
     matrix := matrix;
     range := match justices with
              | [] => None
              | _ :: _ => Some (scaleRange matrix (length justices) (minCases flt))
              end |}.

End App.

(** ** Closed forms for the counters *)

Module Tally.
Import App.

(** What a run of increments does to one cell. *)
Definition addCell (t a : Z) (c : Cell) : Cell :=
  {| agreed := agreed c + a; total := total c + t; rate := rate c |}.

Definition ind (P : Prop) `{Decision P} : Z := if decide P then 1 else 0.

(** How often cell [(i, j)] is addressed by the two writes for the index
    pair [(ji, jj)]. *)
Definition hits (ji jj i j : nat) : Z :=
  ind (i = ji ∧ j = jj) + ind (i = jj ∧ j = ji).

Definition pairTotal (justiceIndex : gmap string nat) (i j : nat)
    (vi vj : string) : Z :=
  match justiceIndex !! vi, justiceIndex !! vj with
  | Some ji, Some jj => hits ji jj i j
  | _, _ => 0
  end.

Definition pairAgreed (justiceIndex : gmap string nat) (c : Case) (i j : nat)
    (vi vj : string) : Z :=
  if bool_decide (votes c !! vi = votes c !! vj)
  then pairTotal justiceIndex i j vi vj else 0.

Definition sumZ (l : list Z) : Z := foldr Z.add 0 l.

(** The sum of [g vi vj] over the pairs the nested loops visit. *)
Fixpoint sumPairs (g : string → string → Z) (voters : list string) : Z :=
  match voters with
  | vi :: rest => sumZ (g vi <$> (vi :: rest)) + sumPairs g rest
  | [] => 0
  end.

Definition caseTotal (justiceIndex : gmap string nat) (i j : nat) (c : Case) : Z :=
  sumPairs (pairTotal justiceIndex i j) (votersOf justiceIndex c).

Definition caseAgreed (justiceIndex : gmap string nat) (i j : nat) (c : Case) : Z :=
  sumPairs (pairAgreed justiceIndex c i j) (votersOf justiceIndex c).

(** The number of cases in which [j] has a vote. *)
Definition participations (cs : list Case) (j : string) : Z :=
  Z.of_nat (length (filter (λ c, is_Some (votes c !! j)) cs)).

End Tally.

(** ** The wording of the specification *)

Module Spec.
Import JS.

(** Case-insensitive lexical order: the code units of the two texts are
    compared in order after folding capitals to lower case. *)
Definition foldedCodes (s : string) : list nat :=
  weights (λ c, nat_of_ascii (toLower c)) s.

Definition caseInsensitiveLe (a b : string) : Prop :=
  lexCompare (foldedCodes a) (foldedCodes b) ≠ Gt.

(** Ascending first-active period, ties broken by the case-insensitive
    lexical order of the display names. *)
Definition displayOrder (data : App.Dataset) (a b : string) : Prop :=
  App.firstTermOf data a < App.firstTermOf data b ∨
  (App.firstTermOf data a = App.firstTermOf data b ∧
   caseInsensitiveLe (App.formatJusticeName data a) (App.formatJusticeName data b)).

(** The order the engine applies: ascending first term, ties broken by the
    locale comparison of the identifiers. *)
Definition identifierOrder (data : App.Dataset) (a b : string) : Prop :=
  App.firstTermOf data a < App.firstTermOf data b ∨
  (App.firstTermOf data a = App.firstTermOf data b ∧ localeCompare a b ≤ 0).

(** A text that is an integer: an optional sign and one or more digits,
    nothing else. *)
Fixpoint allDigits (s : string) : bool :=
  match s with
  | String c rest => isDigit c && allDigits rest
  | EmptyString => true
  end.

Definition isIntegerText (s : string) : bool :=
  match s with
  | String "-"%char (String c rest) => allDigits (String c rest)
  | String "+"%char (String c rest) => allDigits (String c rest)
  | String c rest => allDigits (String c rest)
  | EmptyString => false
  end.

(** The rejection rule in the words of the specification: the case
    identifier is empty, the period is not an integer, the member identifier
    is empty, or the outcome code is not exactly one of the two codes. *)
Definition rejectedAsStated (row : gmap string string) : Prop :=
  falsy (row !! "caseId") = true ∨
  from_option isIntegerText false (row !! "term") = false ∨
  falsy (row !! "justiceName") = true ∨
  (row !! "majority" ≠ Some "1" ∧ row !! "majority" ≠ Some "2").

(** The rejection rule as the code applies it: the period and the outcome
    code are read by [parseInt], which takes the leading integer of a text
    and ignores what follows it. *)
Definition rejectedAsRead (row : gmap string string) : Prop :=
  falsy (Preprocess.caseIdOf row) = true ∨
  Preprocess.termOf row = None ∨
  falsy (Preprocess.justiceNameOf row) = true ∨
  (Preprocess.majorityOf row ≠ Some 1 ∧ Preprocess.majorityOf row ≠ Some 2).

(** The term of an accepted record of the case [caseId]. *)
Definition termFor (caseId : string) (row : gmap string string) : option Z :=
  match Preprocess.accepted row with
  | Some (c, t, _, _) => if decide (c = caseId) then Some t else None
  | None => None
  end.

(** The outcome code of an accepted record of the pair [caseId],
    [justiceName]. *)
Definition voteFor (caseId justiceName : string) (row : gmap string string)
    : option Z :=
  match Preprocess.accepted row with
  | Some (c, _, j, m) =>
      if decide (c = caseId ∧ j = justiceName) then Some m else None
  | None => None
  end.

(** The term of an accepted record of the member [justiceName]. *)
Definition termOfMember (justiceName : string) (row : gmap string string)
    : option Z :=
  match Preprocess.accepted row with
  | Some (_, t, j, _) => if decide (j = justiceName) then Some t else None
  | None => None
  end.

Definition firstSeenTerm (rows : list (gmap string string)) (caseId : string)
    : option Z :=
  head (omap (termFor caseId) rows).

Definition lastVote (rows : list (gmap string string))
    (caseId justiceName : string) : option Z :=
  last (omap (voteFor caseId justiceName) rows).

(** Every member's first-active period is at most its last-active one. *)
Definition membersOrdered (st : Preprocess.State) : Prop :=
  ∀ j e, Preprocess.justices st !! j = Some e →
         Preprocess.firstTerm e ≤ Preprocess.lastTerm e.

(** The value lists of the data lines that are neither blank nor of a
    field count other than the header's. *)
Definition keptValues (headers : list string) (lines : list string)
    : list (list string) :=
  filter (λ values, length values = length headers)
    (Preprocess.parseCSVLine <$> filter (λ line, line ≠ EmptyString) (trim <$> lines)).

End Spec.

(** ** Sample data *)

Module Samples.
Import App.

(** Two cases with the members [A] and [B]: they agree in the first and
    differ in the second. *)
Definition caseC1 : Case :=
  {| id := "C1"; term := 1960; votes := {[ "A" := 1; "B" := 1 ]} |}.
Definition caseC2 : Case :=
  {| id := "C2"; term := 1961; votes := {[ "A" := 1; "B" := 2 ]} |}.

Definition infoOf (justiceName : string) (first last : Z) : JusticeInfo :=
  {| name := Preprocess.formatJusticeName justiceName;
     firstTerm := first; lastTerm := last;
     party := Preprocess.JUSTICE_PARTY !! justiceName |}.

Definition twoMembers : Dataset :=
  {| cases := [caseC1; caseC2];
     justices := {[ "A" := infoOf "A" 1960 1961; "B" := infoOf "B" 1960 1961 ]} |}.

Definition everything : Filter :=
  {| yearStart := 1791; yearEnd := 2024; selectedJustices := None; minCases := 1 |}.

(** A single case with a single vote. *)
Definition caseSolo : Case :=
  {| id := "S1"; term := 1960; votes := {[ "A" := 1 ]} |}.
Definition oneMember : Dataset :=
  {| cases := [caseSolo]; justices := {[ "A" := infoOf "A" 1960 1960 ]} |}.

(** Two identifiers of the party table with the same first term. *)
Definition caseBlackmun : Case :=
  {| id := "B1"; term := 1970;
     votes := {[ "HBlackmun" := 1; "HABlackmun" := 1 ]} |}.
Definition twoBlackmuns : Dataset :=
  {| cases := [caseBlackmun];
     justices := {[ "HBlackmun" := infoOf "HBlackmun" 1970 1993;
                    "HABlackmun" := infoOf "HABlackmun" 1970 1993 ]} |}.

(** Parsed rows: a vote of [A] in case [C1], a later record of the same
    case with another term, a second vote of [A] in [C1], and a record
    whose outcome code is 9. *)
Definition rowOf (caseId term0 justiceName majority : string) : gmap string string :=
  {[ "caseId" := caseId; "term" := term0;
     "justiceName" := justiceName; "majority" := majority ]}.
Definition rowA1 := rowOf "C1" "1960" "A" "1".
Definition rowB1 := rowOf "C1" "1955" "B" "2".
Definition rowA2 := rowOf "C1" "1961" "A" "2".
Definition rowCode9 := rowOf "C1" "1960" "A" "9".

(** A record whose outcome code is the text [2x], and a record of the
    member named [__proto__]. *)
Definition rowCode2x := rowOf "C1" "1960" "A" "2x".
Definition rowProto := rowOf "C1" "1960" "__proto__" "1".

(** A text of five lines: the header, a good row, a blank line, a row
    with one field too many and a row with padded fields. *)
Definition newline : string := String (ascii_of_nat 10) EmptyString.
Definition sampleText : string :=
  "caseId,term" +:+ newline +:+ "C1,1960" +:+ newline +:+ "   " +:+ newline
  +:+ "C2,1961,extra" +:+ newline +:+ " C3 , 1962 ".

End Samples.

(** ** The controls of the page *)

Module Controls.
Import JS App.

(** [getAllJusticesInRange(filterCases())] for the current window. *)
Definition justicesInWindow (data : Dataset) (flt : Filter) : list string :=
  getAllJusticesInRange data (filterCases data (yearStart flt) (yearEnd flt)).

(** A value of the [counts] object: a number, or the text that [+ 1]
    makes of a value that is not a number. *)
Inductive CountValue :=
  | countNumber (n : Z)
  | countText (s : string).

(** [(counts[justice] || 0) + 1]. [counts] starts as a plain object, so a
    name of [Object.prototype] without own property reads as the inherited
    value, which is truthy and which [+ 1] turns into a text;
    [inheritedText] gives the text of the inherited value of each name, as
    the engine prints it. *)
Definition nextCount (inheritedText : string → string)
    (counts : gmap string CountValue) (justice : string) : CountValue :=
  match counts !! justice with
  | Some (countNumber n) => countNumber (n + 1)
  | Some (countText s) =>
      if bool_decide (s = EmptyString) then countNumber 1 else countText (s +:+ "1")
  | None =>
      if bool_decide (justice ∈ objectPrototypeNames)
      then countText (inheritedText justice +:+ "1")
      else countNumber 1
  end.

(** [countCasesPerJustice]: [counts[justice] = (counts[justice] || 0) + 1]
    for every key of every case. *)
Definition countCasesPerJustice (inheritedText : string → string)
    (cs : list Case) : gmap string CountValue :=
  foldl (λ counts c,
           foldl (λ counts justice,
                    setProperty justice (nextCount inheritedText counts justice) counts)
             counts (keys (votes c)))
    ∅ cs.

(** The last step of [handleJusticeToggle]: a selection as large as the list
    of justices becomes [null]. *)
Definition resetIfAll (allJustices : list string) (sel : gset string)
    : option (gset string) :=
  if bool_decide (size sel = length allJustices) then None else Some sel.

(** [handleJusticeToggle]: the new value of [selectedJustices]. Checking a
    box while all are selected returns at once. *)
Definition handleJusticeToggle (data : Dataset) (flt : Filter)
    (justiceId : string) (checked : bool) : Filter :=
  let allJustices := justicesInWindow data flt in
  let selected :=
    if checked then
      match selectedJustices flt with
      | None => None
      | Some sel => resetIfAll allJustices ({[justiceId]} ∪ sel)
      end
    else
      match selectedJustices flt with
      | None =>
          resetIfAll allJustices
            (list_to_set (filter (λ j, j ≠ justiceId) allJustices))
      | Some sel => resetIfAll allJustices (sel ∖ {[justiceId]})
      end in
  {| yearStart := yearStart flt; yearEnd := yearEnd flt;
     selectedJustices := selected; minCases := minCases flt |}.

(** [updateSliders]: [startValue] and [endValue] are the values of the two
    sliders when the event arrives, [onStart] tells whether the event comes
    from the start slider. The slider that moved is pulled back to the other
    one when they cross (both sliders have the same bounds, so the value
    written is one the slider can hold); then the selection loses the
    justices that are not in the new window, and becomes [null] when it
    covers the window. *)
Definition updateSliders (data : Dataset) (flt : Filter) (onStart : bool)
    (startValue endValue : Z) : Filter :=
  let '(newStart, newEnd) :=
    if bool_decide (endValue < startValue)
    then (if onStart then (endValue, endValue) else (startValue, startValue))
    else (startValue, endValue) in
  let selected :=
    match selectedJustices flt with
    | None => None
    | Some sel =>
        let justicesInRange : gset string :=
          list_to_set (getAllJusticesInRange data (filterCases data newStart newEnd)) in
        let kept := filter (λ j, j ∈ justicesInRange) sel in
        if bool_decide (size kept = size justicesInRange) then None else Some kept
    end in
  {| yearStart := newStart; yearEnd := newEnd;
     selectedJustices := selected; minCases := minCases flt |}.

(** How [renderMatrix] draws the cell [(i, j)]: the diagonal gets the color
    of [maxRate], a cell without rate or below [minCases] gets the class
    [no-overlap], any other cell the color of its rate. *)
Inductive Fill :=
  | FillDiagonal (maxRate : Q)
  | NoOverlap
  | FillRate (r : Q).

Definition cellFill (i j : nat) (cell : Cell) (minCases : Z) (maxRate : Q) : Fill :=
  if bool_decide (i = j) then FillDiagonal maxRate
  else
    match rate cell with
    | None => NoOverlap
    | Some r => if bool_decide (total cell < minCases) then NoOverlap else FillRate r
    end.

End Controls.

(** ** Vocabulary for the further properties *)

Module Vocabulary.
Import JS App.

(** A field written the quoted way: enclosed in quotes, each quote of the
    text doubled. *)
Fixpoint doubleQuotes (s : string) : string :=
  match s with
  | String c rest =>
      if bool_decide (c = Preprocess.quote)
      then String c (String c (doubleQuotes rest))
      else String c (doubleQuotes rest)
  | EmptyString => EmptyString
  end.

Definition quoted (field : string) : string :=
  String Preprocess.quote (doubleQuotes field +:+ String Preprocess.quote EmptyString).

(** Quoted fields joined by commas. *)
Fixpoint quotedLine (fields : list string) : string :=
  match fields with
  | [] => EmptyString
  | [f] => quoted f
  | f :: rest => quoted f +:+ String Preprocess.comma (quotedLine rest)
  end.

(** [c] does not occur in [s]. *)
Fixpoint lacks (c : ascii) (s : string) : Prop :=
  match s with
  | String c' rest => c' ≠ c ∧ lacks c rest
  | EmptyString => True
  end.

Fixpoint occurrences (c : ascii) (s : string) : nat :=
  match s with
  | String c' rest => (if bool_decide (c' = c) then 1 else 0) + occurrences c rest
  | EmptyString => 0
  end.

Fixpoint allUpper (s : string) : bool :=
  match s with
  | String c rest => isUpper c && allUpper rest
  | EmptyString => true
  end.

(** The number of cases in which both [a] and [b] have a vote, and the
    number of those in which the two votes are the same. *)
Definition bothVoted (cs : list Case) (a b : string) : Z :=
  Z.of_nat (length (filter (λ c, is_Some (votes c !! a) ∧ is_Some (votes c !! b)) cs)).

Definition bothAgreed (cs : list Case) (a b : string) : Z :=
  Z.of_nat (length (filter (λ c, (is_Some (votes c !! a) ∧ is_Some (votes c !! b))
                                 ∧ votes c !! a = votes c !! b) cs)).

(** [j] is shown as checked: [selectedJustices === null || selectedJustices.has(j)]. *)
Definition isSelected (sel : option (gset string)) (j : string) : Prop :=
  match sel with
  | None => True
  | Some s => j ∈ s
  end.

(** The selection names only justices of the list. *)
Definition withinRange (allJustices : list string) (sel : option (gset string)) : Prop :=
  match sel with
  | None => True
  | Some s => ∀ j, j ∈ s → j ∈ allJustices
  end.

(** The range [b] is at least as wide as the range [a]. *)
Definition widerThan (a b : Q * Q) : Prop :=
  (b.1 <= a.1)%Q ∧ (a.2 <= b.2)%Q.

(** The text [s] followed by [n] times the digit 1: what [n] times [+ 1]
    makes of a text. *)
Fixpoint appendOnes (s : string) (n : nat) : string :=
  match n with
  | O => s
  | S n => appendOnes (s +:+ "1") n
  end.

(** Every member with a vote in some case is a key of the member map. *)
Definition votesKnown (st : Preprocess.State) : Prop :=
  ∀ c e j, Preprocess.cases st !! c = Some e →
           is_Some (Preprocess.votes e !! j) →
           is_Some (Preprocess.justices st !! j).

(** Every stored code is 1 or 2, and no vote is stored under the name
    [__proto__]. *)
Definition votesValid (st : Preprocess.State) : Prop :=
  ∀ c e, Preprocess.cases st !! c = Some e →
         Preprocess.votes e !! "__proto__" = None ∧
         ∀ j m, Preprocess.votes e !! j = Some m → m = 1 ∨ m = 2.

(** Name and party of every member are those derived from its key. *)
Definition membersDerived (st : Preprocess.State) : Prop :=
  ∀ j e, Preprocess.justices st !! j = Some e →
         Preprocess.name e = Preprocess.formatJusticeName j ∧
         Preprocess.party e = Preprocess.partyOf j.

End Vocabulary.

(** ** Facts about the matrix updates *)

Section matrix_updates.
Import App Tally.

Lemma cellAt_update f a b (m : Matrix) i j :
  cellAt (update f a b m) i j
  = if decide (i = a ∧ j = b) then f <$> cellAt m i j else cellAt m i j.
Proof.
  unfold cellAt, update.
  destruct (decide (i = a)) as [->|Hi].
  - rewrite list_lookup_alter_eq. destruct (m !! a) as [row|]; simpl.
    + destruct (decide (j = b)) as [->|Hj].
      * rewrite list_lookup_alter_eq. by rewrite decide_True.
      * rewrite list_lookup_alter_ne by done. rewrite decide_False; [done|tauto].
    + by destruct (decide _).
  - rewrite list_lookup_alter_ne by done. rewrite decide_False; [done|tauto].
Qed.

Lemma addCell_0 (o : option Cell) : addCell 0 0 <$> o = o.
Proof.
  destruct o as [[a t r]|]; [|done]. unfold addCell; simpl.
  by rewrite !Z.add_0_r.
Qed.

Lemma addCell_add t1 a1 t2 a2 (o : option Cell) :
  addCell t2 a2 <$> (addCell t1 a1 <$> o) = addCell (t1 + t2) (a1 + a2) <$> o.
Proof.
  destruct o as [[a t r]|]; [|done]. unfold addCell; simpl.
  do 2 f_equal; lia.
Qed.

Lemma addCell_ext t a t' a' (o : option Cell) :
  t = t' → a = a' → addCell t a <$> o = addCell t' a' <$> o.
Proof. by intros -> ->. Qed.

Lemma incTotal_addCell (o : option Cell) : incTotal <$> o = addCell 1 0 <$> o.
Proof.
  destruct o as [[a t r]|]; [|done]. unfold addCell, incTotal; simpl.
  by rewrite Z.add_0_r.
Qed.

Lemma incAgreed_addCell (o : option Cell) : incAgreed <$> o = addCell 0 1 <$> o.
Proof.
  destruct o as [[a t r]|]; [|done]. unfold addCell, incAgreed; simpl.
  by rewrite Z.add_0_r.
Qed.

Lemma cellAt_incTotal a b (m : Matrix) i j :
  cellAt (update incTotal a b m) i j
  = addCell (ind (i = a ∧ j = b)) 0 <$> cellAt m i j.
Proof.
  rewrite cellAt_update. unfold ind. destruct (decide _).
  - apply incTotal_addCell.
  - by rewrite addCell_0.
Qed.

Lemma cellAt_incAgreed a b (m : Matrix) i j :
  cellAt (update incAgreed a b m) i j
  = addCell 0 (ind (i = a ∧ j = b)) <$> cellAt m i j.
Proof.
  rewrite cellAt_update. unfold ind. destruct (decide _).
  - apply incAgreed_addCell.
  - by rewrite addCell_0.
Qed.

Lemma cellAt_countPair idx c vi vj (m : Matrix) i j :
  cellAt (countPair idx c vi vj m) i j
  = addCell (pairTotal idx i j vi vj) (pairAgreed idx c i j vi vj) <$> cellAt m i j.
Proof.
  unfold countPair, pairAgreed, pairTotal.
  destruct (idx !! vi) as [ji|], (idx !! vj) as [jj|];
    try (destruct (bool_decide _); by rewrite addCell_0).
  destruct (bool_decide _).
  - rewrite !cellAt_incAgreed, !cellAt_incTotal, !addCell_add.
    unfold hits. apply addCell_ext; lia.
  - rewrite !cellAt_incTotal, !addCell_add.
    unfold hits. apply addCell_ext; lia.
Qed.

Lemma cellAt_inner idx c vi (ws : list string) (m : Matrix) i j :
  cellAt (foldl (λ m vj, countPair idx c vi vj m) m ws) i j
  = addCell (sumZ (pairTotal idx i j vi <$> ws))
            (sumZ (pairAgreed idx c i j vi <$> ws)) <$> cellAt m i j.
Proof.
  revert m. induction ws as [|w ws IH]; intros m; simpl.
  - by rewrite addCell_0.
  - rewrite IH, cellAt_countPair, addCell_add. done.
Qed.

Lemma cellAt_countVoters idx c (voters : list string) (m : Matrix) i j :
  cellAt (countVoters idx c voters m) i j
  = addCell (sumPairs (pairTotal idx i j) voters)
            (sumPairs (pairAgreed idx c i j) voters) <$> cellAt m i j.
Proof.
  revert m. induction voters as [|v rest IH]; intros m.
  - simpl. by rewrite addCell_0.
  - cbn [countVoters sumPairs]. rewrite IH, cellAt_inner, addCell_add. done.
Qed.

Lemma cellAt_countCases idx (cs : list Case) (m : Matrix) i j :
  cellAt (foldl (countCase idx) m cs) i j
  = addCell (sumZ (caseTotal idx i j <$> cs))
            (sumZ (caseAgreed idx i j <$> cs)) <$> cellAt m i j.
Proof.
  revert m. induction cs as [|c cs IH]; intros m; simpl.
  - by rewrite addCell_0.
  - rewrite IH. unfold countCase. rewrite cellAt_countVoters, addCell_add.
    done.
Qed.

Lemma cellAt_initMatrix n i j :
  cellAt (initMatrix n) i j
  = if decide (i < n ∧ j < n)%nat
    then Some {| agreed := 0; total := 0; rate := None |} else None.
Proof.
  unfold cellAt, initMatrix.
  destruct (decide (i < n)%nat) as [Hi|Hi].
  - rewrite lookup_replicate_2 by done. simpl.
    destruct (decide (j < n)%nat) as [Hj|Hj].
    + rewrite lookup_replicate_2 by done. by rewrite decide_True.
    + rewrite decide_False by tauto.
      apply lookup_replicate_None. lia.
  - rewrite decide_False by tauto.
    replace (replicate n _ !! i) with (@None (list Cell)); [done|].
    symmetry. apply lookup_replicate_None. lia.
Qed.

Lemma cellAt_fmap (f : Cell → Cell) (m : Matrix) i j :
  cellAt ((λ row : list Cell, f <$> row) <$> m) i j = f <$> cellAt m i j.
Proof.
  unfold cellAt. rewrite list_lookup_fmap.
  destruct (m !! i) as [row|]; simpl; [|done]. apply list_lookup_fmap.
Qed.

(** The cell of the finished matrix, in closed form. *)
Lemma cellAt_calculateConcurrence cs justices i j :
  cellAt (calculateConcurrence cs justices) i j
  = if decide (i < length justices ∧ j < length justices)%nat
    then Some (setRate
      {| agreed := sumZ (caseAgreed (justiceIndexOf justices) i j <$> cs);
         total := sumZ (caseTotal (justiceIndexOf justices) i j <$> cs);
         rate := None |})
    else None.
Proof.
  unfold calculateConcurrence.
  rewrite cellAt_fmap, cellAt_countCases, cellAt_initMatrix.
  destruct (decide _); done.
Qed.

End matrix_updates.

(** ** Facts about the closed forms *)

Section tally_facts.
Import App Tally.

Lemma ind_nonneg P `{Decision P} : 0 ≤ ind P.
Proof. unfold ind. destruct (decide P); lia. Qed.

Lemma hits_sym ji jj i j : hits ji jj i j = hits ji jj j i.
Proof.
  unfold hits, ind.
  repeat destruct (decide _); lia.
Qed.

Lemma hits_nonneg ji jj i j : 0 ≤ hits ji jj i j.
Proof. unfold hits, ind. repeat destruct (decide _); lia. Qed.

Lemma pairTotal_sym idx i j vi vj :
  pairTotal idx i j vi vj = pairTotal idx j i vi vj.
Proof.
  unfold pairTotal. destruct (idx !! vi), (idx !! vj); try done.
  apply hits_sym.
Qed.

Lemma pairTotal_nonneg idx i j vi vj : 0 ≤ pairTotal idx i j vi vj.
Proof.
  unfold pairTotal. destruct (idx !! vi), (idx !! vj); try done.
  apply hits_nonneg.
Qed.

Lemma pairAgreed_sym idx c i j vi vj :
  pairAgreed idx c i j vi vj = pairAgreed idx c j i vi vj.
Proof. unfold pairAgreed. by rewrite pairTotal_sym. Qed.

Lemma pairAgreed_bounds idx c i j vi vj :
  0 ≤ pairAgreed idx c i j vi vj ≤ pairTotal idx i j vi vj.
Proof.
  unfold pairAgreed. pose proof (pairTotal_nonneg idx i j vi vj).
  destruct (bool_decide _); lia.
Qed.

Lemma sumZ_le {A} (f g : A → Z) (l : list A) :
  (∀ x, f x ≤ g x) → sumZ (f <$> l) ≤ sumZ (g <$> l).
Proof.
  intros Hfg. unfold sumZ. induction l as [|x l IH]; csimpl; [lia|].
  specialize (Hfg x). lia.
Qed.

Lemma sumZ_ext {A} (f g : A → Z) (l : list A) :
  (∀ x, f x = g x) → sumZ (f <$> l) = sumZ (g <$> l).
Proof.
  intros Hfg. unfold sumZ. induction l as [|x l IH]; csimpl; [done|].
  by rewrite Hfg, IH.
Qed.

Lemma sumZ_nonneg {A} (f : A → Z) (l : list A) :
  (∀ x, 0 ≤ f x) → 0 ≤ sumZ (f <$> l).
Proof.
  intros Hf. unfold sumZ. induction l as [|x l IH]; csimpl; [lia|].
  specialize (Hf x). lia.
Qed.

Lemma sumPairs_ext g g' voters :
  (∀ v w, g v w = g' v w) → sumPairs g voters = sumPairs g' voters.
Proof.
  intros Hg. induction voters as [|v rest IH]; [done|].
  cbn [sumPairs]. rewrite IH. f_equal. apply sumZ_ext. intros w. apply Hg.
Qed.

Lemma sumPairs_le g g' voters :
  (∀ v w, g v w ≤ g' v w) → sumPairs g voters ≤ sumPairs g' voters.
Proof.
  intros Hg. induction voters as [|v rest IH]; [done|].
  cbn [sumPairs].
  pose proof (sumZ_le (g v) (g' v) (v :: rest) (Hg v)). lia.
Qed.

Lemma sumPairs_nonneg g voters :
  (∀ v w, 0 ≤ g v w) → 0 ≤ sumPairs g voters.
Proof.
  intros Hg. induction voters as [|v rest IH]; [done|].
  cbn [sumPairs].
  pose proof (sumZ_nonneg (g v) (v :: rest) (Hg v)). lia.
Qed.

Lemma caseTotal_sym idx i j c : caseTotal idx i j c = caseTotal idx j i c.
Proof. apply sumPairs_ext. intros. apply pairTotal_sym. Qed.

Lemma caseAgreed_sym idx i j c : caseAgreed idx i j c = caseAgreed idx j i c.
Proof. apply sumPairs_ext. intros. apply pairAgreed_sym. Qed.

Lemma caseAgreed_bounds idx i j c :
  0 ≤ caseAgreed idx i j c ≤ caseTotal idx i j c.
Proof.
  split.
  - apply sumPairs_nonneg. intros. apply pairAgreed_bounds.
  - apply sumPairs_le. intros. apply pairAgreed_bounds.
Qed.

Lemma agreed_le_total idx i j (cs : list Case) :
  0 ≤ sumZ (caseAgreed idx i j <$> cs) ≤ sumZ (caseTotal idx i j <$> cs).
Proof.
  split.
  - apply sumZ_nonneg. intros. apply caseAgreed_bounds.
  - apply sumZ_le. intros. apply caseAgreed_bounds.
Qed.

(** *** The index map *)

Lemma justiceIndexOf_snoc (l : list string) x :
  justiceIndexOf (l ++ [x]) = <[x := length l]> (justiceIndexOf l).
Proof.
  unfold justiceIndexOf. rewrite imap_app, foldl_app. simpl.
  by rewrite Nat.add_0_r.
Qed.

Lemma justiceIndexOf_Some (l : list string) v k :
  justiceIndexOf l !! v = Some k → l !! k = Some v.
Proof.
  induction l as [|x l IH] using rev_ind; [done|].
  rewrite justiceIndexOf_snoc, lookup_insert.
  destruct (decide (x = v)) as [->|Hne].
  - intros [= <-]. by rewrite list_lookup_middle.
  - intros Hk. apply lookup_app_l_Some. auto.
Qed.

Lemma justiceIndexOf_NoDup (l : list string) v k :
  NoDup l → l !! k = Some v → justiceIndexOf l !! v = Some k.
Proof.
  induction l as [|x l IH] using rev_ind; [done|].
  rewrite NoDup_app. intros (Hl & Hx & _) Hk.
  rewrite justiceIndexOf_snoc.
  apply lookup_app_Some in Hk as [Hk|[Hlen Hk]].
  - rewrite lookup_insert_ne; [auto|].
    intros ->. eapply Hx; [by eapply list_elem_of_lookup_2|by left].
  - apply list_lookup_singleton_Some in Hk as [Hk ->].
    rewrite lookup_insert_eq. f_equal. lia.
Qed.

Lemma justiceIndexOf_is_Some (l : list string) v :
  is_Some (justiceIndexOf l !! v) ↔ v ∈ l.
Proof.
  split.
  - intros [k Hk]. apply justiceIndexOf_Some in Hk.
    by eapply list_elem_of_lookup_2.
  - induction l as [|x l IH] using rev_ind; [by intros ?%elem_of_nil|].
    rewrite justiceIndexOf_snoc, lookup_insert. intros Hv.
    destruct (decide (x = v)); [by eexists|].
    apply IH. apply elem_of_app in Hv as [Hv|Hv]; [done|].
    apply list_elem_of_singleton in Hv. congruence.
Qed.

(** *** The voters of a case *)

Lemma elem_of_keys (vs : gmap string Z) j : j ∈ keys vs ↔ is_Some (vs !! j).
Proof.
  unfold keys. rewrite list_elem_of_fmap. split.
  - intros ([k x] & -> & Hin). apply elem_of_map_to_list in Hin. by eexists.
  - intros [x Hx]. exists (j, x). split; [done|]. by apply elem_of_map_to_list.
Qed.

Lemma NoDup_keys (vs : gmap string Z) : NoDup (keys vs).
Proof. apply NoDup_fst_map_to_list. Qed.

Lemma NoDup_votersOf idx c : NoDup (votersOf idx c).
Proof. apply NoDup_filter, NoDup_keys. Qed.

Lemma elem_of_votersOf idx c j :
  j ∈ votersOf idx c ↔ is_Some (idx !! j) ∧ is_Some (votes c !! j).
Proof. unfold votersOf. by rewrite list_elem_of_filter, elem_of_keys. Qed.

(** *** The diagonal *)

Lemma pairTotal_diag_ne (l : list string) i v w :
  v ≠ w → pairTotal (justiceIndexOf l) i i v w = 0.
Proof.
  intros Hne. unfold pairTotal.
  destruct (justiceIndexOf l !! v) as [ji|] eqn:Hv; [|done].
  destruct (justiceIndexOf l !! w) as [jj|] eqn:Hw; [|done].
  apply justiceIndexOf_Some in Hv, Hw.
  assert (¬ (i = ji ∧ i = jj)) as Hno by (intros [-> ->]; congruence).
  unfold hits, ind. rewrite !decide_False; [done|tauto|tauto].
Qed.

Lemma pairTotal_diag_eq idx i v :
  pairTotal idx i i v v = if decide (idx !! v = Some i) then 2 else 0.
Proof.
  unfold pairTotal. destruct (idx !! v) as [k|]; [|by rewrite decide_False].
  unfold hits, ind. destruct (decide (k = i)) as [->|Hne].
  - by rewrite !decide_True.
  - rewrite !decide_False; [done|congruence|lia..].
Qed.

Lemma pairAgreed_diag_eq idx c i v :
  pairAgreed idx c i i v v = pairTotal idx i i v v.
Proof. unfold pairAgreed. by rewrite bool_decide_eq_true_2. Qed.

Lemma sumZ_zero {A} (f : A → Z) (l : list A) :
  (∀ x, x ∈ l → f x = 0) → sumZ (f <$> l) = 0.
Proof.
  unfold sumZ. induction l as [|x l IH]; csimpl; intros Hf; [done|].
  rewrite Hf by left. rewrite IH; [done|]. intros y Hy. apply Hf. by right.
Qed.

Lemma sumPairs_diag g (voters : list string) :
  NoDup voters → (∀ v w, v ≠ w → g v w = 0) →
  sumPairs g voters = sumZ ((λ v, g v v) <$> voters).
Proof.
  intros Hnd Hg. induction Hnd as [|v rest Hv Hnd IH]; [done|].
  cbn [sumPairs]. rewrite IH. unfold sumZ at 1 3. csimpl. fold (sumZ (g v <$> rest)).
  rewrite (sumZ_zero (g v) rest); [unfold sumZ; lia|].
  intros w Hw. apply Hg. by intros ->.
Qed.

Lemma sumZ_single (J : string) (voters : list string) :
  NoDup voters →
  sumZ ((λ v, if decide (v = J) then 2 else 0) <$> voters)
  = if decide (J ∈ voters) then 2 else 0.
Proof.
  induction 1 as [|v rest Hv Hnd IH].
  - rewrite decide_False; [done|]. apply not_elem_of_nil.
  - rewrite fmap_cons. change (sumZ (?x :: ?l)) with (x + sumZ l).
    rewrite IH. destruct (decide (v = J)) as [->|Hne].
    + rewrite (decide_False (P := J ∈ rest)) by done.
      rewrite decide_True; [done|by left].
    + destruct (decide (J ∈ rest)) as [Hin|Hnin].
      * rewrite decide_True; [done|by right].
      * rewrite decide_False; [done|].
        intros [?|?]%elem_of_cons; [congruence|done].
Qed.

Lemma caseTotal_diag (l : list string) i J c :
  NoDup l → l !! i = Some J →
  caseTotal (justiceIndexOf l) i i c
  = if decide (is_Some (votes c !! J)) then 2 else 0.
Proof.
  intros Hnd Hi. unfold caseTotal.
  rewrite sumPairs_diag;
    [|apply NoDup_votersOf|intros; by apply pairTotal_diag_ne].
  rewrite (sumZ_ext _ (λ v, if decide (v = J) then 2 else 0)).
  - rewrite sumZ_single by apply NoDup_votersOf.
    pose proof (justiceIndexOf_NoDup l J i Hnd Hi) as HJ.
    destruct (decide (J ∈ _)) as [Hin|Hnin].
    + apply elem_of_votersOf in Hin as [_ ?]. by rewrite decide_True.
    + rewrite decide_False; [done|]. intros Hv. apply Hnin.
      apply elem_of_votersOf. split; [by eexists|done].
  - intros v. rewrite pairTotal_diag_eq.
    destruct (decide (v = J)) as [->|Hne].
    + rewrite decide_True; [done|]. by apply justiceIndexOf_NoDup.
    + rewrite decide_False; [done|].
      intros Hv%justiceIndexOf_Some. congruence.
Qed.

Lemma caseAgreed_diag (l : list string) i c :
  caseAgreed (justiceIndexOf l) i i c = caseTotal (justiceIndexOf l) i i c.
Proof.
  unfold caseAgreed, caseTotal.
  rewrite !sumPairs_diag;
    try apply NoDup_votersOf;
    try (intros; by apply pairTotal_diag_ne).
  - apply sumZ_ext. intros v. apply pairAgreed_diag_eq.
  - intros v w Hne. unfold pairAgreed.
    rewrite pairTotal_diag_ne by done. by destruct (bool_decide _).
Qed.

Lemma sumZ_participations (cs : list Case) (J : string) :
  sumZ ((λ c, if decide (is_Some (votes c !! J)) then 2 else 0) <$> cs)
  = 2 * participations cs J.
Proof.
  unfold sumZ, participations. induction cs as [|c cs IH]; csimpl; [done|].
  rewrite IH, filter_cons. destruct (decide _); simpl; lia.
Qed.

End tally_facts.

(** ** The active justices *)

Section active_justices.
Import App.

Lemma NoDup_setAdd (s : list string) x : NoDup s → NoDup (setAdd s x).
Proof.
  intros Hs. unfold setAdd. destruct (decide (x ∈ s)); [done|].
  apply NoDup_app. split_and!; [done| |apply NoDup_singleton].
  intros y Hy ->%list_elem_of_singleton. done.
Qed.

Lemma NoDup_foldl_setAdd (ks s : list string) :
  NoDup s → NoDup (foldl setAdd s ks).
Proof.
  revert s. induction ks as [|k ks IH]; intros s Hs; simpl; [done|].
  by apply IH, NoDup_setAdd.
Qed.

Lemma NoDup_justiceSet (cs : list Case) : NoDup (justiceSet cs).
Proof.
  unfold justiceSet. generalize (NoDup_nil_2 (A := string)).
  generalize (@nil string). induction cs as [|c cs IH]; intros s Hs; simpl; [done|].
  by apply IH, NoDup_foldl_setAdd.
Qed.

Lemma NoDup_getAllJusticesInRange data cs : NoDup (getAllJusticesInRange data cs).
Proof.
  unfold getAllJusticesInRange. rewrite merge_sort_Permutation.
  apply NoDup_justiceSet.
Qed.

Lemma NoDup_getActiveJustices data sel cs : NoDup (getActiveJustices data sel cs).
Proof.
  unfold getActiveJustices. destruct sel.
  - apply NoDup_filter, NoDup_getAllJusticesInRange.
  - apply NoDup_getAllJusticesInRange.
Qed.

End active_justices.

(** ** The agreement matrix *)

Section agreement_matrix.
Import App Tally Samples.

(** C1. The matrix returned by [calculateConcurrence] is symmetric: for
    every list of cases, every list of justices and every two positions
    [i] and [j] of that list, the cells [(i, j)] and [(j, i)] exist and
    carry the same [agreed], the same [total] and the same [rate]. *)
Theorem calculateConcurrence_symmetric (cs : list Case) (justices : list string)
    (i j : nat) :
  (i < length justices)%nat → (j < length justices)%nat →
  ∃ cij cji,
    cellAt (calculateConcurrence cs justices) i j = Some cij ∧
    cellAt (calculateConcurrence cs justices) j i = Some cji ∧
    agreed cij = agreed cji ∧ total cij = total cji ∧ rate cij = rate cji.
Proof.
  intros Hi Hj. rewrite !cellAt_calculateConcurrence.
  rewrite !decide_True by done.
  do 2 eexists. split; [done|]. split; [done|].
  unfold setRate; cbn [agreed total rate].
  rewrite (sumZ_ext _ _ cs (caseTotal_sym (justiceIndexOf justices) i j)).
  rewrite (sumZ_ext _ _ cs (caseAgreed_sym (justiceIndexOf justices) i j)).
  done.
Qed.

Lemma calculateConcurrence_symmetric_witness :
  (0 < length ["A"; "B"])%nat ∧ (1 < length ["A"; "B"])%nat ∧
  ∃ cij cji,
    cellAt (calculateConcurrence [caseC1; caseC2] ["A"; "B"]) 0 1 = Some cij ∧
    cellAt (calculateConcurrence [caseC1; caseC2] ["A"; "B"]) 1 0 = Some cji ∧
    agreed cij = agreed cji ∧ total cij = total cji ∧ rate cij = rate cji.
Proof.
  split; [simpl; lia|]. split; [simpl; lia|].
  apply (calculateConcurrence_symmetric [caseC1; caseC2] ["A"; "B"] 0 1);
    simpl; lia.
Defined.

(** C3. In every cell of the computed matrix the rate is defined exactly
    when [total > 0], a cell with [total = 0] holds [null], and a defined
    rate is the quotient [agreed / total] and lies between 0 and 1. *)
Theorem rate_defined_iff_total_positive (cs : list Case) (justices : list string)
    (i j : nat) (cell : Cell) :
  cellAt (calculateConcurrence cs justices) i j = Some cell →
  (is_Some (rate cell) ↔ 0 < total cell) ∧
  (total cell = 0 → rate cell = None) ∧
  (∀ r, rate cell = Some r →
     r = Qmake (agreed cell) (Z.to_pos (total cell)) ∧ (0 <= r)%Q ∧ (r <= 1)%Q).
Proof.
  rewrite cellAt_calculateConcurrence. destruct (decide _); [|done].
  intros [= <-]. unfold setRate; cbn [agreed total rate].
  pose proof (agreed_le_total (justiceIndexOf justices) i j cs) as [Ha Ht].
  set (nAgreed := sumZ (caseAgreed _ i j <$> cs)) in *.
  set (nTotal := sumZ (caseTotal _ i j <$> cs)) in *.
  split_and!.
  - split.
    + intros [r Hr]. by case_bool_decide.
    + intros Hpos. rewrite bool_decide_eq_true_2 by done. by eexists.
  - intros ->. done.
  - intros r Hr. case_bool_decide as Hpos; [|done].
    injection Hr as <-. split; [done|]. unfold Qle; simpl.
    rewrite Z2Pos.id by done. lia.
Qed.

Lemma rate_defined_iff_total_positive_witness :
  cellAt (calculateConcurrence [caseC1; caseC2] ["A"; "B"]) 0 1
    = Some {| agreed := 1; total := 2; rate := Some (1 # 2)%Q |} ∧
  (is_Some (Some (1 # 2)%Q) ↔ 0 < 2) ∧
  (2 = 0 → Some (1 # 2)%Q = None) ∧
  (∀ r, Some (1 # 2)%Q = Some r →
     r = Qmake 1 (Z.to_pos 2) ∧ (0 <= r)%Q ∧ (r <= 1)%Q).
Proof.
  split; [vm_compute; reflexivity|].
  apply (rate_defined_iff_total_positive [caseC1; caseC2] ["A"; "B"] 0 1
           {| agreed := 1; total := 2; rate := Some (1 # 2)%Q |}).
  vm_compute; reflexivity.
Defined.

Lemma diagonal_cell (cs : list Case) (justices : list string) (i : nat) (J : string) :
  NoDup justices → justices !! i = Some J →
  cellAt (calculateConcurrence cs justices) i i
  = Some (setRate {| agreed := 2 * participations cs J;
                     total := 2 * participations cs J;
                     rate := None |}).
Proof.
  intros Hnd Hi. rewrite cellAt_calculateConcurrence.
  pose proof (lookup_lt_Some _ _ _ Hi). rewrite decide_True by done.
  rewrite (sumZ_ext _ _ cs (caseAgreed_diag justices i)).
  rewrite (sumZ_ext _ _ cs (λ c, caseTotal_diag justices i J c Hnd Hi)).
  by rewrite sumZ_participations.
Qed.

(** C10. For every dataset and filter, the diagonal cell of an active
    member has [total] equal to twice the number of selected cases in which
    that member has a vote, [agreed] equal to the same number, and a rate
    equal to 1 as soon as the member has a vote in one selected case. *)
Theorem diagonal_twice_participations (data : Dataset) (flt : Filter)
    (i : nat) (J : string) :
  let cs := filterCases data (yearStart flt) (yearEnd flt) in
  let view := renderMatrix data flt in
  members view !! i = Some J →
  ∃ cell,
    cellAt (matrix view) i i = Some cell ∧
    total cell = 2 * participations cs J ∧
    agreed cell = 2 * participations cs J ∧
    (0 < participations cs J → ∃ r, rate cell = Some r ∧ (r == 1)%Q).
Proof.
  intros cs view Hi. unfold view, renderMatrix in *. cbn [members matrix] in *.
  fold cs in Hi |- *.
  rewrite (diagonal_cell cs _ i J); [|apply NoDup_getActiveJustices|done].
  eexists. split; [done|]. unfold setRate; cbn [agreed total rate].
  split_and!; [done..|].
  intros Hpos. rewrite bool_decide_eq_true_2 by lia.
  eexists. split; [done|]. unfold Qeq; simpl. rewrite Z2Pos.id by lia. lia.
Qed.

Lemma diagonal_twice_participations_witness :
  members (renderMatrix twoMembers everything) !! 0%nat = Some "A" ∧
  ∃ cell,
    cellAt (matrix (renderMatrix twoMembers everything)) 0 0 = Some cell ∧
    total cell = 2 * participations (filterCases twoMembers 1791 2024) "A" ∧
    agreed cell = 2 * participations (filterCases twoMembers 1791 2024) "A" ∧
    (0 < participations (filterCases twoMembers 1791 2024) "A" →
     ∃ r, rate cell = Some r ∧ (r == 1)%Q).
Proof.
  split; [vm_compute; reflexivity|].
  apply (diagonal_twice_participations twoMembers everything 0 "A").
  vm_compute; reflexivity.
Defined.

(** C2, evaluated. One case in which the single active member [A] has a
    vote: the inner loop starts at [j = i], so the pair of [A] with itself
    is counted and both writes land in cell [(0, 0)]. *)
Theorem self_pair_is_counted :
  cellAt (calculateConcurrence [caseSolo] ["A"]) 0 0
  = Some {| agreed := 2; total := 2; rate := Some (2 # 2)%Q |}.
Proof. vm_compute. reflexivity. Qed.

End agreement_matrix.

(** ** The scale range *)

Section scale_range.
Import App Samples.

Lemma foldl_fixed {A B} (f : A → B → A) (a : A) (l : list B) :
  (∀ x, x ∈ l → f a x = a) → foldl f a l = a.
Proof.
  induction l as [|x l IH]; intros Hf; simpl; [done|].
  rewrite Hf by left. apply IH. intros y Hy. apply Hf. by right.
Qed.

(** A scan in which no cell takes part leaves the two initial values. *)
Lemma scaleRange_nothing_qualifies (m : Matrix) (n : nat) (minCases : Z) :
  (∀ i j cell r, i ≠ j → cellAt m i j = Some cell → rate cell = Some r →
                 total cell < minCases) →
  scaleRange m n minCases = (1%Q, 0%Q).
Proof.
  intros Hnone. unfold scaleRange.
  apply foldl_fixed. intros i _. apply foldl_fixed. intros j _.
  unfold scanCell. destruct (cellAt m i j) as [cell|] eqn:Hc; [|done].
  destruct (rate cell) as [r|] eqn:Hr; [|done].
  destruct (decide (i = j)) as [->|Hij].
  - by rewrite bool_decide_eq_false_2 by (intros ?; done).
  - specialize (Hnone i j cell r Hij Hc Hr).
    rewrite (bool_decide_eq_false_2 (minCases ≤ total cell)) by lia.
    by rewrite andb_false_r.
Qed.

(** C4, evaluated. With one active member, and with two members whose
    pair stays below [minCases], no cell takes part in the scan; the range
    handed on is then the pair of initial values, minimum 1 and maximum 0,
    and no empty-range condition is reported. *)
Theorem empty_scan_gives_inverted_range :
  range (renderMatrix oneMember everything) = Some (1%Q, 0%Q) ∧
  range (renderMatrix twoMembers
           {| yearStart := 1791; yearEnd := 2024;
              selectedJustices := None; minCases := 5 |}) = Some (1%Q, 0%Q) ∧
  (0 < 1)%Q.
Proof. split_and!; vm_compute; reflexivity. Qed.

End scale_range.

(** ** The order of the active justices *)

Section justice_order.
Import JS App Samples.

Lemma lexCompare_antisym a b : lexCompare b a = CompOpp (lexCompare a b).
Proof.
  revert b. induction a as [|x a IH]; intros [|y b]; simpl; try done.
  rewrite (Nat.compare_antisym x y).
  destruct (Nat.compare x y); simpl; auto.
Qed.

Lemma lexCompare_trans a b c :
  lexCompare a b ≠ Gt → lexCompare b c ≠ Gt → lexCompare a c ≠ Gt.
Proof.
  revert b c. induction a as [|x a IH]; intros [|y b] [|z c]; simpl; try done.
  destruct (Nat.compare_spec x y) as [->|Hxy|Hxy]; [| |done].
  - destruct (Nat.compare_spec y z) as [->|Hyz|Hyz]; [|done..].
    apply IH.
  - intros _. destruct (Nat.compare_spec y z) as [->|Hyz|Hyz]; [| |done].
    + intros _. by rewrite (proj2 (Nat.compare_lt_iff x z)).
    + intros _. by rewrite (proj2 (Nat.compare_lt_iff x z)) by lia.
Qed.

Lemma localeCompare_le a b :
  localeCompare a b ≤ 0 ↔ lexCompare (sortKey a) (sortKey b) ≠ Gt.
Proof. unfold localeCompare. destruct (lexCompare _ _); split; (done || lia). Qed.

Lemma localeCompare_total a b : localeCompare a b ≤ 0 ∨ localeCompare b a ≤ 0.
Proof.
  rewrite !localeCompare_le, (lexCompare_antisym (sortKey a) (sortKey b)).
  destruct (lexCompare _ _); simpl; auto.
Qed.

Lemma localeCompare_trans a b c :
  localeCompare a b ≤ 0 → localeCompare b c ≤ 0 → localeCompare a c ≤ 0.
Proof. rewrite !localeCompare_le. apply lexCompare_trans. Qed.

(** The comparator orders by first term and, on equal first terms, by the
    locale comparison of the two identifiers. *)
Lemma precedes_iff data a b :
  precedes data a b ↔
  firstTermOf data a < firstTermOf data b ∨
  (firstTermOf data a = firstTermOf data b ∧ localeCompare a b ≤ 0).
Proof.
  unfold precedes, compareJustices. case_bool_decide as Hne.
  - split; [lia|]. intros [?|[? _]]; [lia|done].
  - rewrite Hne. split; [auto|].
    intros [?|[_ ?]]; [lia|done].
Qed.

#[local] Instance precedes_total data : Total (precedes data).
Proof.
  intros a b. rewrite !precedes_iff.
  destruct (localeCompare_total a b); lia.
Qed.

#[local] Instance precedes_trans data : Transitive (precedes data).
Proof.
  intros a b c. rewrite !precedes_iff.
  intros [?|[? Hab]] [?|[? Hbc]]; try lia.
  right. split; [lia|]. by eapply localeCompare_trans.
Qed.

Lemma StronglySorted_filter {A} (R : relation A) (P : A → Prop)
    `{∀ x, Decision (P x)} (l : list A) :
  StronglySorted R l → StronglySorted R (filter P l).
Proof.
  induction 1 as [|x l Hl IH Hx]; [constructor|].
  rewrite filter_cons. destruct (decide (P x)); [|done].
  constructor; [done|].
  apply Forall_forall. intros y [_ Hy]%list_elem_of_filter.
  by eapply Forall_forall in Hx.
Qed.

Lemma StronglySorted_getActiveJustices data sel cs :
  StronglySorted (precedes data) (getActiveJustices data sel cs).
Proof.
  unfold getActiveJustices, getAllJusticesInRange. destruct sel.
  - apply StronglySorted_filter, StronglySorted_merge_sort; apply _.
  - apply StronglySorted_merge_sort; apply _.
Qed.

Lemma StronglySorted_impl {A} (R1 R2 : relation A) (l : list A) :
  (∀ x y, R1 x y → R2 x y) → StronglySorted R1 l → StronglySorted R2 l.
Proof.
  intros HR. induction 1 as [|x l Hl IH Hx]; constructor; [done|].
  eapply Forall_impl; [done|]. intros y. apply HR.
Qed.

(** C5, as the code has it. For every dataset, selection and list of
    cases, the active justices are in ascending order of first term, a
    member without metadata counting as term 0, and members of equal first
    term are in the order of the locale comparison of their identifiers;
    every member stands in this order to every later member of the list. *)
Theorem active_justices_sorted_by_identifier (data : Dataset)
    (sel : option (gset string)) (cs : list Case) :
  StronglySorted (Spec.identifierOrder data) (getActiveJustices data sel cs).
Proof.
  eapply StronglySorted_impl; [|apply StronglySorted_getActiveJustices].
  intros a b. apply precedes_iff.
Qed.

(** C5, as stated, fails. The identifiers [HABlackmun] and [HBlackmun]
    have the same first term; the engine puts [HABlackmun] first, while the
    display name of [HBlackmun] is the smaller one in case-insensitive
    lexical order. *)
Lemma display_name_order_fails :
  let active :=
    getActiveJustices twoBlackmuns None (filterCases twoBlackmuns 1791 2024) in
  active = ["HABlackmun"; "HBlackmun"] ∧
  formatJusticeName twoBlackmuns "HABlackmun" = "H.A. Blackmun" ∧
  formatJusticeName twoBlackmuns "HBlackmun" = "H. Blackmun" ∧
  ¬ Sorted (Spec.displayOrder twoBlackmuns) active.
Proof.
  assert (getActiveJustices twoBlackmuns None (filterCases twoBlackmuns 1791 2024)
          = ["HABlackmun"; "HBlackmun"]) as Hactive by (vm_compute; reflexivity).
  cbv zeta. rewrite Hactive.
  split_and!; [done|vm_compute; reflexivity..|].
  intros Hsorted. apply Sorted_inv in Hsorted as [_ Hhd].
  apply HdRel_inv in Hhd. destruct Hhd as [Hlt|[_ Hle]].
  - vm_compute in Hlt. discriminate.
  - apply Hle. vm_compute. reflexivity.
Qed.

End justice_order.

(** ** The canonicalizer *)

Section canonicalizer.
Import JS Preprocess Samples.

Lemma accepted_None_iff (row : Row) : accepted row = None ↔ Spec.rejectedAsRead row.
Proof.
  unfold Spec.rejectedAsRead, accepted.
  destruct (caseIdOf row) as [c|]; [|split; [by left|done]].
  destruct (termOf row) as [t|]; [|split; [by right; left|done]].
  destruct (justiceNameOf row) as [j|]; [|split; [by right; right; left|done]].
  destruct (majorityOf row) as [m|];
    [|split; [by right; right; right|by repeat destruct (_ || _)]].
  destruct (falsy (Some c)) eqn:Hc; [split; [by left|done]|].
  destruct (falsy (Some j)) eqn:Hj; [split; [by right; right; left|done]|].
  simpl. split.
  - intros H. right; right; right.
    destruct (decide (m = 1)) as [->|?]; [by rewrite bool_decide_eq_false_2 in H by auto|].
    destruct (decide (m = 2)) as [->|?];
      [by rewrite (bool_decide_eq_false_2 (2 ≠ 2)), andb_false_r in H by auto|].
    split; congruence.
  - intros [?|[?|[?|[H1 H2]]]]; try done.
    rewrite !bool_decide_eq_true_2; [done|congruence..].
Qed.

Lemma processRow_rejected (st : State) (row : Row) :
  Spec.rejectedAsRead row → processRow st row = st.
Proof. intros H%accepted_None_iff. unfold processRow. by rewrite H. Qed.

Lemma foldl_processRow_rejected (st : State) (pre post : list Row) (row : Row) :
  Spec.rejectedAsRead row →
  foldl processRow st (pre ++ row :: post) = foldl processRow st (pre ++ post).
Proof.
  intros H. rewrite !foldl_app. simpl. by rewrite processRow_rejected.
Qed.

(** C6, as the code has it. A record whose case identifier is empty,
    whose term has no leading integer for [parseInt], whose member
    identifier is empty, or whose outcome code is read by [parseInt] as
    neither 1 nor 2 leaves both maps as they are; the result of
    [processData] is the one obtained without that record. *)
Theorem rejected_row_contributes_nothing (row : Row) :
  Spec.rejectedAsRead row →
  (∀ st, processRow st row = st) ∧
  (∀ pre post, processData (pre ++ row :: post) = processData (pre ++ post)).
Proof.
  intros H. split.
  - intros st. by apply processRow_rejected.
  - intros pre post. by apply foldl_processRow_rejected.
Qed.

Lemma rejected_row_contributes_nothing_witness :
  Spec.rejectedAsRead rowCode9 ∧
  (∀ st, processRow st rowCode9 = st) ∧
  (∀ pre post, processData (pre ++ rowCode9 :: post) = processData (pre ++ post)).
Proof.
  assert (Spec.rejectedAsRead rowCode9) as H.
  { right; right; right. split; vm_compute; discriminate. }
  split; [exact H|]. apply (rejected_row_contributes_nothing rowCode9 H).
Defined.

(** C6, as stated, fails. The outcome code [2x] is not exactly one of the
    two codes, so the record is rejected in the words of the specification;
    [parseInt] reads it as 2, and the record creates the case [C1] with the
    vote of [A] and the member [A]. *)
Lemma lenient_code_is_accepted :
  Spec.rejectedAsStated rowCode2x ∧
  cases (processData [rowCode2x]) !! "C1"
    = Some {| term := 1960; votes := {[ "A" := 2 ]} |} ∧
  (∃ e, justices (processData [rowCode2x]) !! "A" = Some e ∧
        firstTerm e = 1960 ∧ lastTerm e = 1960) ∧
  processData [rowCode2x] ≠ processData [].
Proof.
  split_and!.
  - right; right; right. split; vm_compute; discriminate.
  - vm_compute. reflexivity.
  - eexists. split; [vm_compute; reflexivity|]. split; reflexivity.
  - intros Heq.
    assert (cases (processData [rowCode2x]) !! "C1" = cases (processData []) !! "C1")
      as Hc by (by rewrite Heq).
    vm_compute in Hc. discriminate.
Qed.

Lemma processData_snoc (rows : list Row) (row : Row) :
  processData (rows ++ [row]) = processRow (processData rows) row.
Proof. unfold processData. by rewrite foldl_snoc. Qed.

Lemma lookup_upsertCase caseId t j m (cs : gmap string CaseEntry) k :
  upsertCase caseId t j m cs !! k
  = if decide (caseId = k)
    then Some {| term := from_option term t (cs !! caseId);
                 votes := setProperty j m (from_option votes ∅ (cs !! caseId)) |}
    else cs !! k.
Proof.
  unfold upsertCase. rewrite lookup_alter.
  destruct (decide (caseId = k)) as [<-|Hne].
  - destruct (cs !! caseId) as [e|] eqn:He.
    + by rewrite He.
    + by rewrite lookup_insert_eq.
  - destruct (cs !! caseId); [done|]. by rewrite lookup_insert_ne.
Qed.

Lemma lookup_upsertJustice j t (js : gmap string JusticeEntry) k :
  upsertJustice j t js !! k
  = if decide (j = k)
    then Some match js !! j with
              | Some e => {| name := name e;
                             firstTerm := Z.min (firstTerm e) t;
                             lastTerm := Z.max (lastTerm e) t;
                             party := party e |}
              | None => {| name := formatJusticeName j;
                           firstTerm := t; lastTerm := t;
                           party := partyOf j |}
              end
    else js !! k.
Proof.
  unfold upsertJustice. destruct (js !! j) as [e|] eqn:He.
  - rewrite lookup_alter. destruct (decide (j = k)) as [<-|]; [|done].
    by rewrite He.
  - rewrite lookup_insert. by destruct (decide (j = k)).
Qed.

Lemma cases_processRow (st : State) (row : Row) k :
  cases (processRow st row) !! k
  = match accepted row with
    | Some (c, t, j, m) =>
        if decide (c = k)
        then Some {| term := from_option term t (cases st !! c);
                     votes := setProperty j m (from_option votes ∅ (cases st !! c)) |}
        else cases st !! k
    | None => cases st !! k
    end.
Proof.
  unfold processRow. destruct (accepted row) as [[[[c t] j] m]|]; [|done].
  apply lookup_upsertCase.
Qed.

Lemma justices_processRow (st : State) (row : Row) k :
  justices (processRow st row) !! k
  = match accepted row with
    | Some (c, t, j, m) =>
        if decide (j = k)
        then Some match justices st !! j with
                  | Some e => {| name := name e;
                                 firstTerm := Z.min (firstTerm e) t;
                                 lastTerm := Z.max (lastTerm e) t;
                                 party := party e |}
                  | None => {| name := formatJusticeName j;
                               firstTerm := t; lastTerm := t;
                               party := partyOf j |}
                  end
        else justices st !! k
    | None => justices st !! k
    end.
Proof.
  unfold processRow. destruct (accepted row) as [[[[c t] j] m]|]; [|done].
  apply lookup_upsertJustice.
Qed.

Lemma term_processRow (st : State) (row : Row) caseId e :
  cases st !! caseId = Some e →
  term <$> cases (processRow st row) !! caseId = Some (term e).
Proof.
  intros He. rewrite cases_processRow.
  destruct (accepted row) as [[[[c t] j] m]|]; [|by rewrite He].
  destruct (decide (c = caseId)) as [->|]; [|by rewrite He].
  by rewrite He.
Qed.

Lemma firstSeenTerm_processData (rows : list Row) caseId :
  term <$> cases (processData rows) !! caseId = Spec.firstSeenTerm rows caseId.
Proof.
  unfold Spec.firstSeenTerm.
  induction rows as [|row rows IH] using rev_ind; [done|].
  rewrite processData_snoc, omap_app, head_app, <- IH, cases_processRow.
  unfold Spec.termFor. simpl.
  destruct (accepted row) as [[[[c t] j] m]|]; [|by destruct (cases _ !! _)].
  destruct (decide (c = caseId)) as [->|]; [|by destruct (cases _ !! _)].
  by destruct (cases _ !! _).
Qed.

Lemma lookup_setProperty {V} k (v : V) (obj : gmap string V) j :
  setProperty k v obj !! j
  = if decide (k = j ∧ k ≠ "__proto__") then Some v else obj !! j.
Proof.
  unfold setProperty. case_bool_decide as Hk.
  - rewrite decide_False; [done|]. tauto.
  - rewrite lookup_insert. destruct (decide (k = j)) as [->|Hne].
    + by rewrite decide_True.
    + rewrite decide_False; [done|]. tauto.
Qed.

Lemma proto_vote_processData (rows : list Row) caseId :
  cases (processData rows) !! caseId ≫= (λ e, votes e !! "__proto__") = None.
Proof.
  induction rows as [|row rows IH] using rev_ind; [done|].
  rewrite processData_snoc, cases_processRow.
  destruct (accepted row) as [[[[c t] j] m]|]; [|done].
  destruct (decide (c = caseId)) as [->|Hc]; [|done].
  simpl. rewrite lookup_setProperty, decide_False by tauto.
  by destruct (cases _ !! _).
Qed.

Lemma lastVote_processData (rows : list Row) caseId justiceName :
  justiceName ≠ "__proto__" →
  cases (processData rows) !! caseId ≫= (λ e, votes e !! justiceName)
  = Spec.lastVote rows caseId justiceName.
Proof.
  intros Hproto. unfold Spec.lastVote.
  induction rows as [|row rows IH] using rev_ind; [done|].
  rewrite processData_snoc, omap_app, last_app, <- IH, cases_processRow.
  unfold Spec.voteFor. simpl.
  destruct (accepted row) as [[[[c t] j] m]|]; [|done].
  destruct (decide (c = caseId)) as [->|Hc].
  - simpl. rewrite lookup_setProperty.
    destruct (decide (j = justiceName)) as [->|Hj].
    + by rewrite !decide_True.
    + rewrite !decide_False by tauto. simpl. by destruct (cases _ !! _).
  - by rewrite decide_False by tauto.
Qed.

(** C7, evaluated. One accepted record of the member named [__proto__]:
    the case is created with its term, but the assignment to
    [votes[justiceName]] stores nothing, so the vote set stays empty although
    the last accepted record of the pair carries the code 1; the member map,
    a [Map], does hold the member. *)
Theorem proto_member_vote_is_not_stored :
  accepted rowProto = Some ("C1", 1960, "__proto__", 1) ∧
  cases (processData [rowProto]) !! "C1" = Some {| term := 1960; votes := ∅ |} ∧
  Spec.lastVote [rowProto] "C1" "__proto__" = Some 1 ∧
  is_Some (justices (processData [rowProto]) !! "__proto__").
Proof.
  split_and!; try (vm_compute; reflexivity).
  vm_compute. eexists. reflexivity.
Qed.

(** X24. For every sequence of records: a case that is present keeps its
    term through any further record; the term of a case is the term of the
    first accepted record of that case; the code stored for a case and a
    member other than [__proto__] is the code of the last accepted record of
    that pair; and under the name [__proto__] no code is ever stored. *)
Theorem first_term_and_last_own_vote_win (rows : list Row)
    (caseId justiceName : string) :
  (∀ st row e, cases st !! caseId = Some e →
     term <$> cases (processRow st row) !! caseId = Some (term e)) ∧
  term <$> cases (processData rows) !! caseId = Spec.firstSeenTerm rows caseId ∧
  cases (processData rows) !! caseId ≫= (λ e, votes e !! justiceName)
    = if decide (justiceName = "__proto__") then None
      else Spec.lastVote rows caseId justiceName.
Proof.
  split_and!.
  - intros st row e. apply term_processRow.
  - apply firstSeenTerm_processData.
  - destruct (decide (justiceName = "__proto__")) as [->|Hproto].
    + apply proto_vote_processData.
    + by apply lastVote_processData.
Qed.

Lemma first_term_and_last_own_vote_win_witness :
  cases (processData [rowA1]) !! "C1" = Some {| term := 1960; votes := {[ "A" := 1 ]} |} ∧
  term <$> cases (processRow (processData [rowA1]) rowB1) !! "C1" = Some 1960 ∧
  term <$> cases (processData [rowA1; rowB1; rowA2]) !! "C1" = Some 1960 ∧
  cases (processData [rowA1; rowB1; rowA2]) !! "C1" ≫= (λ e, votes e !! "A") = Some 2.
Proof.
  destruct (first_term_and_last_own_vote_win [rowA1; rowB1; rowA2] "C1" "A")
    as (Hstep & Hfirst & Hlast).
  assert (cases (processData [rowA1]) !! "C1"
          = Some {| term := 1960; votes := {[ "A" := 1 ]} |}) as H0
    by (vm_compute; reflexivity).
  split; [exact H0|]. split; [exact (Hstep _ rowB1 _ H0)|].
  split; [rewrite Hfirst; vm_compute; reflexivity|].
  rewrite Hlast. vm_compute. reflexivity.
Defined.

Lemma membersOrdered_processRow (st : State) (row : Row) :
  Spec.membersOrdered st → Spec.membersOrdered (processRow st row).
Proof.
  intros Hst k e'. rewrite justices_processRow.
  destruct (accepted row) as [[[[c t] j] m]|]; [|apply Hst].
  destruct (decide (j = k)) as [->|]; [|apply Hst].
  destruct (justices st !! k) as [e|] eqn:He; intros [= <-]; simpl; [|lia].
  specialize (Hst k e He). lia.
Qed.

Lemma membersOrdered_processData (rows : list Row) :
  Spec.membersOrdered (processData rows).
Proof.
  induction rows as [|row rows IH] using rev_ind; [by intros j e|].
  rewrite processData_snoc. by apply membersOrdered_processRow.
Qed.

Lemma member_terms_processData (rows : list Row) (j : string) :
  match omap (Spec.termOfMember j) rows with
  | [] => justices (processData rows) !! j = None
  | t0 :: ts =>
      ∃ e, justices (processData rows) !! j = Some e ∧
           firstTerm e = foldl Z.min t0 ts ∧ lastTerm e = foldl Z.max t0 ts
  end.
Proof.
  induction rows as [|row rows IH] using rev_ind; [done|].
  rewrite processData_snoc, omap_app, justices_processRow.
  unfold Spec.termOfMember at 2. simpl.
  destruct (accepted row) as [[[[c t] j'] m]|];
    [|by rewrite app_nil_r].
  destruct (decide (j' = j)) as [->|Hne]; [|by rewrite app_nil_r].
  destruct (omap _ rows) as [|t0 ts]; simpl.
  - rewrite IH. by eexists.
  - destruct IH as (e & -> & Hmin & Hmax). eexists. split; [done|].
    simpl. by rewrite !foldl_snoc, Hmin, Hmax.
Qed.

(** C9. After any sequence of records every member has its first-active
    period at most its last-active one; each single record preserves this;
    and the two periods are the running minimum and the running maximum of
    the terms of the accepted records of that member, in input order. *)
Theorem first_term_le_last_term (rows : list Row) (j : string) :
  Spec.membersOrdered (processData rows) ∧
  (∀ st row, Spec.membersOrdered st → Spec.membersOrdered (processRow st row)) ∧
  match omap (Spec.termOfMember j) rows with
  | [] => justices (processData rows) !! j = None
  | t0 :: ts =>
      ∃ e, justices (processData rows) !! j = Some e ∧
           firstTerm e = foldl Z.min t0 ts ∧ lastTerm e = foldl Z.max t0 ts
  end.
Proof.
  split_and!.
  - apply membersOrdered_processData.
  - apply membersOrdered_processRow.
  - apply member_terms_processData.
Qed.

Lemma first_term_le_last_term_witness :
  ∃ e, justices (processData [rowA1; rowB1; rowA2]) !! "A" = Some e ∧
       firstTerm e = 1960 ∧ lastTerm e = 1961 ∧ firstTerm e ≤ lastTerm e.
Proof.
  destruct (first_term_le_last_term [rowA1; rowB1; rowA2] "A") as (Hord & _ & Hmm).
  destruct Hmm as (e & He & Hmin & Hmax).
  exists e. split; [exact He|]. split; [exact Hmin|]. split; [exact Hmax|].
  exact (Hord "A" e He).
Defined.

End canonicalizer.

(** ** The delimited-text reader *)

Section reader.
Import JS Preprocess Samples.

Lemma trimStart_idem s : trimStart (trimStart s) = trimStart s.
Proof.
  induction s as [|c s IH]; simpl; [done|].
  destruct (isWhiteSpace c) eqn:Hc; [done|]. simpl. by rewrite Hc.
Qed.

Lemma trimEnd_cons c s :
  trimEnd (String c s)
  = match trimEnd s with
    | EmptyString => if isWhiteSpace c then EmptyString else String c EmptyString
    | r => String c r
    end.
Proof. done. Qed.

Lemma trimEnd_idem s : trimEnd (trimEnd s) = trimEnd s.
Proof.
  induction s as [|c s IH]; [done|].
  rewrite trimEnd_cons. destruct (trimEnd s) as [|c' r] eqn:Hs.
  - destruct (isWhiteSpace c) eqn:Hc; [done|].
    rewrite trimEnd_cons. simpl. by rewrite Hc.
  - by rewrite trimEnd_cons, IH.
Qed.

Lemma trimEnd_trimStart s : trimEnd (trimStart s) = trimStart (trimEnd s).
Proof.
  induction s as [|c s IH]; simpl; [done|].
  destruct (isWhiteSpace c) eqn:Hc.
  - rewrite IH. destruct (trimEnd s); simpl; by rewrite ?Hc.
  - simpl. destruct (trimEnd s); simpl; by rewrite Hc.
Qed.

Lemma trim_idem s : trim (trim s) = trim s.
Proof.
  unfold trim. by rewrite trimEnd_trimStart, trimEnd_idem, trimStart_idem.
Qed.

Lemma parseCSVLine_loop_cons char rest values current inQuotes :
  parseCSVLine_loop (String char rest) values current inQuotes
  = if bool_decide (char = quote) then
      match inQuotes, rest with
      | true, String next rest' =>
          if bool_decide (next = quote)
          then parseCSVLine_loop rest' values (current +:+ String quote EmptyString) inQuotes
          else parseCSVLine_loop rest values current (negb inQuotes)
      | _, _ => parseCSVLine_loop rest values current (negb inQuotes)
      end
    else if bool_decide (char = comma) && negb inQuotes then
      parseCSVLine_loop rest (values ++ [trim current]) EmptyString inQuotes
    else parseCSVLine_loop rest values (current +:+ String char EmptyString) inQuotes.
Proof. done. Qed.

Lemma parseCSVLine_loop_trimmed (n : nat) :
  ∀ line values current inQuotes,
    (String.length line ≤ n)%nat →
    Forall (λ v, trim v = v) values →
    Forall (λ v, trim v = v) (parseCSVLine_loop line values current inQuotes).
Proof.
  assert (∀ values current, Forall (λ v, trim v = v) values →
            Forall (λ v, trim v = v) (values ++ [trim current])) as Hpush.
  { intros values current Hv. apply Forall_app. split; [done|].
    apply Forall_singleton, trim_idem. }
  induction n as [|n IH]; intros line values current inQuotes Hlen Hv.
  - destruct line; simpl in Hlen; [by apply Hpush|lia].
  - destruct line as [|char rest]; [by apply Hpush|].
    simpl in Hlen. rewrite parseCSVLine_loop_cons.
    destruct (bool_decide (char = quote)).
    + destruct inQuotes; [|apply IH; [lia|done]].
      destruct rest as [|next rest']; [apply IH; [lia|done]|].
      simpl in Hlen.
      destruct (bool_decide (next = quote)); apply IH; simpl; (lia || done).
    + destruct (bool_decide (char = comma) && negb inQuotes);
        apply IH; try lia; auto.
Qed.

Lemma parseCSVLine_trimmed line v : v ∈ parseCSVLine line → trim v = v.
Proof.
  intros Hv.
  pose proof (parseCSVLine_loop_trimmed (String.length line) line [] EmptyString false
                (le_n _) (Forall_nil_2 _)) as Hall.
  by eapply Forall_forall in Hall.
Qed.

Lemma parseCSV_loop_closed headers lines rows :
  parseCSV_loop headers lines rows
  = rows ++ (makeRow headers <$> Spec.keptValues headers lines).
Proof.
  unfold Spec.keptValues.
  revert rows. induction lines as [|l lines IH]; intros rows.
  - simpl. by rewrite app_nil_r.
  - cbn [parseCSV_loop]. cbv zeta. rewrite fmap_cons, filter_cons.
    case_bool_decide as Hblank.
    + rewrite decide_False by (by intros ?). apply IH.
    + rewrite decide_True by done. rewrite fmap_cons, filter_cons.
      case_bool_decide as Hcount.
      * rewrite decide_False by done. apply IH.
      * rewrite decide_True by done. rewrite IH, fmap_cons.
        by rewrite <- app_assoc.
Qed.

Lemma keptValues_drop headers pre l post :
  trim l = EmptyString ∨ length (parseCSVLine (trim l)) ≠ length headers →
  Spec.keptValues headers (pre ++ l :: post) = Spec.keptValues headers (pre ++ post).
Proof.
  intros Hl. unfold Spec.keptValues.
  rewrite !fmap_app, !filter_app, !fmap_app, !filter_app.
  f_equal. rewrite fmap_cons, filter_cons.
  destruct (decide (trim l ≠ EmptyString)) as [Hne|]; [|done].
  rewrite fmap_cons, filter_cons.
  destruct Hl as [?|Hcount]; [done|]. by rewrite decide_False.
Qed.

(** C8. For every text, the rows returned are those of the data lines
    that are not blank and have as many fields as the header, in input
    order; a blank line or a line of another field count can be removed
    from the input without changing the result; and every field value is
    trimmed of leading and trailing white space. *)
Theorem malformed_rows_dropped_fields_trimmed :
  (∀ content,
     parseCSV content
     = match splitLines content EmptyString with
       | first :: rest =>
           makeRow (parseCSVLine first)
             <$> Spec.keptValues (parseCSVLine first) rest
       | [] => []
       end) ∧
  (∀ headers pre l post,
     trim l = EmptyString ∨ length (parseCSVLine (trim l)) ≠ length headers →
     parseCSV_loop headers (pre ++ l :: post) []
     = parseCSV_loop headers (pre ++ post) []) ∧
  (∀ line v, v ∈ parseCSVLine line → trim v = v).
Proof.
  split_and!.
  - intros content. unfold parseCSV.
    destruct (splitLines content EmptyString) as [|first rest]; [done|].
    by rewrite parseCSV_loop_closed.
  - intros headers pre l post Hl.
    by rewrite !parseCSV_loop_closed, keptValues_drop.
  - apply parseCSVLine_trimmed.
  Qed.

Lemma malformed_rows_dropped_fields_trimmed_witness :
  parseCSV sampleText
    = [ {[ "caseId" := "C1"; "term" := "1960" ]};
        {[ "caseId" := "C3"; "term" := "1962" ]} ] ∧
  parseCSV_loop ["caseId"; "term"] (["C1,1960"] ++ "C2,1961,extra" :: [" C3 , 1962 "]) []
    = parseCSV_loop ["caseId"; "term"] (["C1,1960"] ++ [" C3 , 1962 "]) [] ∧
  trim "C3" = "C3".
Proof.
  destruct malformed_rows_dropped_fields_trimmed as (Hrows & Hdrop & Htrim).
  split; [rewrite Hrows; vm_compute; reflexivity|].
  split.
  - apply Hdrop. right. vm_compute. lia.
  - apply (Htrim " C3 , 1962 "). vm_compute. left.
Defined.

End reader.

(** ** Further properties of the delimited-text reader *)

Section reader_further.
Import JS Preprocess Vocabulary Samples.

Lemma append_cons c a b : String c a +:+ b = String c (a +:+ b).
Proof. reflexivity. Qed.

Lemma append_nil_l b : EmptyString +:+ b = b.
Proof. reflexivity. Qed.

Lemma append_nil_r s : s +:+ EmptyString = s.
Proof.
  induction s as [|c s IH]; [done|]. by rewrite append_cons, IH.
Qed.

Lemma append_assoc a b c : (a +:+ b) +:+ c = a +:+ (b +:+ c).
Proof.
  induction a as [|x a IH]; [done|]. by rewrite !append_cons, IH.
Qed.

Lemma comma_not_quote : comma ≠ quote.
Proof. discriminate. Qed.

(** Inside a quoted field the loop copies the text up to the closing quote,
    provided the quote is followed by the end of the line or by a comma. *)
Lemma parseCSVLine_loop_quoted field rest values current :
  rest = EmptyString ∨ (∃ r, rest = String comma r) →
  parseCSVLine_loop (doubleQuotes field +:+ String quote rest) values current true
  = parseCSVLine_loop rest values (current +:+ field) false.
Proof.
  intros Hrest. revert current.
  induction field as [|c field IH]; intros current.
  - cbn [doubleQuotes]. rewrite append_nil_l.
    rewrite parseCSVLine_loop_cons, bool_decide_eq_true_2 by done.
    rewrite append_nil_r.
    destruct Hrest as [->|[r ->]]; [done|].
    by rewrite (bool_decide_eq_false_2 (comma = quote)) by apply comma_not_quote.
  - cbn [doubleQuotes]. case_bool_decide as Hc.
    + subst c. rewrite !append_cons.
      rewrite parseCSVLine_loop_cons, bool_decide_eq_true_2 by done.
      rewrite IH, append_assoc. done.
    + rewrite append_cons.
      rewrite parseCSVLine_loop_cons, bool_decide_eq_false_2 by done.
      rewrite andb_false_r, IH, append_assoc. done.
Qed.

Lemma parseCSVLine_loop_field field rest values :
  rest = EmptyString ∨ (∃ r, rest = String comma r) →
  parseCSVLine_loop (quoted field +:+ rest) values EmptyString false
  = parseCSVLine_loop rest values field false.
Proof.
  intros Hrest. unfold quoted. rewrite append_cons.
  rewrite parseCSVLine_loop_cons, bool_decide_eq_true_2 by done.
  rewrite append_assoc, append_cons, append_nil_l. cbn [negb].
  by rewrite parseCSVLine_loop_quoted.
Qed.

Lemma parseCSVLine_loop_quotedLine fields values :
  fields ≠ [] →
  parseCSVLine_loop (quotedLine fields) values EmptyString false
  = values ++ (trim <$> fields).
Proof.
  revert values. induction fields as [|f fields IH]; intros values Hne; [done|].
  destruct fields as [|g fields].
  - cbn [quotedLine]. rewrite <- (append_nil_r (quoted f)).
    rewrite parseCSVLine_loop_field by (by left). done.
  - change (quotedLine (f :: g :: fields))
      with (quoted f +:+ String comma (quotedLine (g :: fields))).
    rewrite parseCSVLine_loop_field by (right; by eexists).
    rewrite parseCSVLine_loop_cons.
    rewrite (bool_decide_eq_false_2 (comma = quote)) by apply comma_not_quote.
    rewrite bool_decide_eq_true_2 by done. cbn [negb andb].
    rewrite IH by done. by rewrite <- app_assoc, fmap_cons.
Qed.

(** X1. A line of quoted fields, each enclosed in quotes with its own
    quotes doubled and the fields joined by commas, is read back as the
    trimmed fields, whatever the fields contain. *)
Theorem quoted_fields_read_back (fields : list string) :
  fields ≠ [] → parseCSVLine (quotedLine fields) = trim <$> fields.
Proof. intros Hne. unfold parseCSVLine. by rewrite parseCSVLine_loop_quotedLine. Qed.

Lemma quoted_fields_read_back_witness :
  [" a,b "; String quote "hi" +:+ String quote " there"] ≠ [] ∧
  parseCSVLine (quotedLine [" a,b "; String quote "hi" +:+ String quote " there"])
  = ["a,b"; String quote "hi" +:+ String quote " there"].
Proof.
  split; [discriminate|].
  apply (quoted_fields_read_back [" a,b "; String quote "hi" +:+ String quote " there"]).
  discriminate.
Defined.

Lemma parseCSVLine_loop_unquoted line values current :
  lacks quote line →
  length (parseCSVLine_loop line values current false)
  = (length values + S (occurrences comma line))%nat.
Proof.
  revert values current. induction line as [|c line IH]; intros values current Hq.
  - simpl. rewrite length_app. simpl. lia.
  - destruct Hq as [Hc Hq]. rewrite parseCSVLine_loop_cons.
    rewrite bool_decide_eq_false_2 by done. cbn [negb occurrences].
    rewrite andb_true_r. case_bool_decide.
    + rewrite IH by done. rewrite length_app. simpl. lia.
    + rewrite IH by done. lia.
Qed.

(** X2. A line without any quote character has one field more than it has
    commas; in particular [parseCSVLine] never returns an empty list for
    such a line, not even for the empty line. *)
Theorem unquoted_line_field_count (line : string) :
  lacks quote line →
  length (parseCSVLine line) = S (occurrences comma line).
Proof. intros Hq. unfold parseCSVLine. by rewrite parseCSVLine_loop_unquoted. Qed.

Lemma unquoted_line_field_count_witness :
  lacks quote "C2,1961,extra" ∧
  length (parseCSVLine "C2,1961,extra") = S (occurrences comma "C2,1961,extra").
Proof.
  assert (lacks quote "C2,1961,extra") as H by (vm_compute; repeat split; discriminate).
  split; [exact H|]. apply (unquoted_line_field_count "C2,1961,extra" H).
Defined.

Lemma splitLines_no_LF content current :
  lacks "010"%char content → splitLines content current = [current +:+ content].
Proof.
  revert current. induction content as [|c content IH]; intros current Hlf.
  - simpl. by rewrite append_nil_r.
  - destruct Hlf as [Hc Hlf]. cbn [splitLines].
    rewrite bool_decide_eq_false_2 by done.
    destruct content as [|c' content'].
    + rewrite IH by done. by rewrite append_assoc.
    + destruct Hlf as [Hc' Hlf'].
      rewrite (bool_decide_eq_false_2 (c' = "010"%char)) by done.
      rewrite andb_false_r, IH by done. by rewrite append_assoc.
Qed.

(** X4. A text without any line feed, that is a header line alone or the
    empty text, yields no row. *)
Theorem header_only_text_has_no_rows (content : string) :
  lacks "010"%char content → parseCSV content = [].
Proof. intros Hlf. unfold parseCSV. by rewrite splitLines_no_LF. Qed.

Lemma header_only_text_has_no_rows_witness :
  lacks "010"%char "caseId,term,justiceName,majority" ∧
  parseCSV "caseId,term,justiceName,majority" = [].
Proof.
  assert (lacks "010"%char "caseId,term,justiceName,majority") as H
    by (vm_compute; repeat split; discriminate).
  split; [exact H|]. apply (header_only_text_has_no_rows _ H).
Defined.

End reader_further.

(** ** The rows built by the reader *)

Section rows_further.
Import JS Preprocess Vocabulary Samples.

Lemma foldl_set_is_Some (ps : list (string * string)) (m : Row) h :
  is_Some (foldl (λ row hv, setProperty hv.1 hv.2 row) m ps !! h)
  ↔ is_Some (m !! h) ∨ (h ∈ ps.*1 ∧ h ≠ "__proto__").
Proof.
  revert m. induction ps as [|[k x] ps IH]; intros m; csimpl.
  - split; [by left|]. intros [?|[Hin _]]; [done|]. by apply elem_of_nil in Hin.
  - rewrite IH, lookup_setProperty, elem_of_cons.
    destruct (decide (k = h ∧ k ≠ "__proto__")) as [[-> Hp]|Hno].
    + split; [|by left; eexists]. intros _. right. auto.
    + split.
      * intros [?|[? ?]]; auto.
      * intros [?|[[->|?] ?]]; auto. exfalso. apply Hno. auto.
Qed.

Lemma foldl_set_Some (ps : list (string * string)) (m : Row) h v :
  foldl (λ row hv, setProperty hv.1 hv.2 row) m ps !! h = Some v →
  m !! h = Some v ∨ (h, v) ∈ ps.
Proof.
  revert m. induction ps as [|[k x] ps IH]; intros m; csimpl; [by left|].
  intros [Hm|Hin]%IH; [|right; by right].
  rewrite lookup_setProperty in Hm.
  destruct (decide (k = h ∧ k ≠ "__proto__")) as [[-> _]|]; simpl in Hm.
  - injection Hm as ->. right. by left.
  - by left.
Qed.

Lemma foldl_set_notin (ps : list (string * string)) (m : Row) h :
  h ∉ ps.*1 → foldl (λ row hv, setProperty hv.1 hv.2 row) m ps !! h = m !! h.
Proof.
  revert m. induction ps as [|[k x] ps IH]; intros m; csimpl; [done|].
  intros Hnin. apply not_elem_of_cons in Hnin as [Hk Hps].
  rewrite IH by done. rewrite lookup_setProperty, decide_False; [done|].
  intros [? _]. congruence.
Qed.

Lemma foldl_set_proto (ps : list (string * string)) (m : Row) :
  m !! "__proto__" = None →
  foldl (λ row hv, setProperty hv.1 hv.2 row) m ps !! "__proto__" = None.
Proof.
  revert m. induction ps as [|[k x] ps IH]; intros m Hm; csimpl; [done|].
  apply IH. rewrite lookup_setProperty, decide_False; [done|].
  intros [-> ?]. done.
Qed.

Lemma foldl_zip_set_lookup (hs vs : list string) (m : Row) i h v :
  hs !! i = Some h → vs !! i = Some v → h ∉ drop (S i) hs → h ≠ "__proto__" →
  foldl (λ row hv, setProperty hv.1 hv.2 row) m (zip hs vs) !! h = Some v.
Proof.
  intros Hh Hv Hlater Hproto. revert vs m i Hh Hv Hlater.
  induction hs as [|h0 hs IH]; intros vs m i Hh Hv Hlater; [done|].
  destruct vs as [|v0 vs]; [done|]. destruct i as [|i]; simpl in *.
  - injection Hh as ->. injection Hv as ->.
    rewrite foldl_set_notin; [by rewrite lookup_setProperty, decide_True|].
    intros Hin. apply Hlater. rewrite drop_0.
    apply list_elem_of_fmap in Hin as ([k x] & -> & Hin).
    by eapply elem_of_zip_l.
  - by eapply IH.
Qed.

(** X5. In a row, the value found under a header name other than
    [__proto__] is the field of the same position in the line, provided the
    name does not occur again later in the header; a later occurrence of a
    name takes its place. Under the name [__proto__] a row holds no value of
    its own, whatever the header and the line. *)
Theorem row_value_of_column (headers values : list string) (i : nat) (h v : string) :
  headers !! i = Some h → values !! i = Some v → h ∉ drop (S i) headers →
  makeRow headers values !! h
  = if decide (h = "__proto__") then None else Some v.
Proof.
  intros Hh Hv Hlater. unfold makeRow.
  destruct (decide (h = "__proto__")) as [->|Hproto].
  - apply foldl_set_proto, lookup_empty.
  - by eapply foldl_zip_set_lookup.
Qed.

Lemma row_value_of_column_witness :
  ["caseId"; "term"; "caseId"] !! 2%nat = Some "caseId" ∧
  ["C1"; "1960"; "C9"] !! 2%nat = Some "C9" ∧
  ("caseId" ∉ drop 3 ["caseId"; "term"; "caseId"]) ∧
  makeRow ["caseId"; "term"; "caseId"] ["C1"; "1960"; "C9"] !! "caseId" = Some "C9".
Proof.
  assert ("caseId" ∉ drop 3 ["caseId"; "term"; "caseId"]) as H
    by (simpl; apply not_elem_of_nil).
  split; [reflexivity|]. split; [reflexivity|]. split; [exact H|].
  apply (row_value_of_column ["caseId"; "term"; "caseId"] ["C1"; "1960"; "C9"]
           2 "caseId" "C9"); [reflexivity|reflexivity|exact H].
Defined.

Lemma elem_of_keptValues headers lines values :
  values ∈ Spec.keptValues headers lines →
  length values = length headers ∧ ∃ line, values = parseCSVLine line.
Proof.
  unfold Spec.keptValues. rewrite list_elem_of_filter, list_elem_of_fmap.
  intros [Hlen (line & -> & _)]. split; [done|]. by eexists.
Qed.

(** X3. Every row returned by [parseCSV] has a value under each name of
    the header line other than [__proto__] and under no other name, and each
    of its values is free of leading and trailing white space. *)
Theorem rows_carry_the_header_names (content first : string) (rest : list string)
    (row : Row) :
  splitLines content EmptyString = first :: rest →
  row ∈ parseCSV content →
  (∀ h, is_Some (row !! h) ↔ h ∈ parseCSVLine first ∧ h ≠ "__proto__") ∧
  (∀ h v, row !! h = Some v → trim v = v).
Proof.
  intros Hsplit. unfold parseCSV. rewrite Hsplit, parseCSV_loop_closed.
  rewrite app_nil_l, list_elem_of_fmap.
  intros (values & -> & Hkept).
  apply elem_of_keptValues in Hkept as [Hlen [line ->]].
  unfold makeRow. split.
  - intros h. rewrite foldl_set_is_Some, fst_zip by lia.
    rewrite lookup_empty. split; [|by right].
    intros [[? [=]]|?]; done.
  - intros h v [Hm|Hin]%foldl_set_Some; [by rewrite lookup_empty in Hm|].
    apply elem_of_zip_r in Hin. by eapply parseCSVLine_trimmed.
Qed.

Lemma rows_carry_the_header_names_witness :
  ∃ first rest row,
    splitLines sampleText EmptyString = first :: rest ∧
    row ∈ parseCSV sampleText ∧
    (∀ h, is_Some (row !! h) ↔ h ∈ parseCSVLine first ∧ h ≠ "__proto__") ∧
    (∀ h v, row !! h = Some v → trim v = v).
Proof.
  exists "caseId,term", ["C1,1960"; "   "; "C2,1961,extra"; " C3 , 1962 "],
    {[ "caseId" := "C3"; "term" := "1962" ]}.
  assert (splitLines sampleText EmptyString
          = "caseId,term" :: ["C1,1960"; "   "; "C2,1961,extra"; " C3 , 1962 "]) as H1
    by (vm_compute; reflexivity).
  assert (({[ "caseId" := "C3"; "term" := "1962" ]} : Row) ∈ parseCSV sampleText) as H2.
  { assert (parseCSV sampleText
            = [ {[ "caseId" := "C1"; "term" := "1960" ]};
                {[ "caseId" := "C3"; "term" := "1962" ]} ]) as -> by (vm_compute; reflexivity).
    right. left. }
  split; [exact H1|]. split; [exact H2|].
  exact (rows_carry_the_header_names sampleText _ _ _ H1 H2).
Defined.

End rows_further.

(** ** The display name of a justice *)

Section display_name.
Import JS Preprocess Vocabulary.

Lemma isLower_not_upper c : isLower c = true → isUpper c = false.
Proof.
  unfold isLower, isUpper. intros H%bool_decide_eq_true.
  apply bool_decide_eq_false. lia.
Qed.

Lemma isLower_not_digit c : isLower c = true → isDigit c = false.
Proof.
  unfold isLower, isDigit. intros H%bool_decide_eq_true.
  apply bool_decide_eq_false. lia.
Qed.

Lemma splitLast_app a b :
  splitLast (a +:+ b)
  = match splitLast b with
    | Some (x, l) => Some (a +:+ x, l)
    | None => splitLast a
    end.
Proof.
  induction a as [|c a IH].
  - rewrite append_nil_l. by destruct (splitLast b) as [[x l]|].
  - rewrite append_cons. cbn [splitLast]. rewrite IH.
    destruct (splitLast b) as [[x l]|]; [by rewrite append_cons|done].
Qed.

Lemma splitLast_snoc s c : splitLast (s +:+ String c EmptyString) = Some (s, c).
Proof. rewrite splitLast_app. simpl. by rewrite append_nil_r. Qed.

Lemma splitLast_allLower s :
  s ≠ EmptyString → allLower s = true →
  ∃ x l, splitLast s = Some (x, l) ∧ isLower l = true.
Proof.
  induction s as [|c s IH]; [done|]. intros _ [Hc Hs]%andb_true_iff.
  cbn [splitLast]. destruct s as [|c' s'].
  - simpl. by eexists _, _.
  - destruct IH as (x & l & -> & Hl); [done..|]. by eexists _, _.
Qed.

Lemma spanUpper_app u r :
  allUpper u = true →
  (r = EmptyString ∨ ∃ c r', r = String c r' ∧ isUpper c = false) →
  spanUpper (u +:+ r) = (u, r).
Proof.
  intros Hu Hr. induction u as [|c u IH].
  - rewrite append_nil_l. destruct Hr as [->|(c & r' & -> & Hc)]; [done|].
    simpl. by rewrite Hc.
  - apply andb_true_iff in Hu as [Hc Hu]. rewrite append_cons.
    cbn [spanUpper]. by rewrite Hc, IH.
Qed.

Lemma allUpper_snoc u c :
  allUpper u = true → isUpper c = true → allUpper (u +:+ String c EmptyString) = true.
Proof.
  intros Hu Hc. induction u as [|x u IH].
  - simpl. by rewrite Hc.
  - apply andb_true_iff in Hu as [Hx Hu]. rewrite append_cons. simpl.
    by rewrite Hx, IH.
Qed.

(** The part of the match that follows the choice of the final digit. *)
Lemma spanUpper_identifier initials cap lowers :
  allUpper initials = true → isUpper cap = true →
  lowers ≠ EmptyString → allLower lowers = true →
  spanUpper (initials +:+ String cap lowers)
  = (initials +:+ String cap EmptyString, lowers).
Proof.
  intros Hi Hc Hne Hl.
  replace (initials +:+ String cap lowers)
    with ((initials +:+ String cap EmptyString) +:+ lowers)
    by (by rewrite append_assoc).
  apply spanUpper_app; [by apply allUpper_snoc|].
  destruct lowers as [|l lowers]; [done|]. right.
  apply andb_true_iff in Hl as [Hl _]. eexists _, _. split; [done|].
  by apply isLower_not_upper.
Qed.

Lemma matchJusticeName_plain initials cap lowers :
  initials ≠ EmptyString → allUpper initials = true → isUpper cap = true →
  lowers ≠ EmptyString → allLower lowers = true →
  matchJusticeName (initials +:+ String cap lowers)
  = Some (initials, String cap lowers, EmptyString).
Proof.
  intros Hine Hi Hc Hlne Hl. unfold matchJusticeName.
  destruct (splitLast_allLower lowers Hlne Hl) as (x & l & Hx & Hlow).
  replace (initials +:+ String cap lowers)
    with ((initials +:+ String cap EmptyString) +:+ lowers) at 1
    by (by rewrite append_assoc).
  rewrite splitLast_app, Hx, (isLower_not_digit l Hlow).
  rewrite spanUpper_identifier, splitLast_snoc by done.
  destruct initials as [|i0 more]; [done|].
  destruct lowers as [|l0 lowers']; [done|]. by rewrite Hl.
Qed.

Lemma matchJusticeName_digit initials cap lowers d :
  initials ≠ EmptyString → allUpper initials = true → isUpper cap = true →
  lowers ≠ EmptyString → allLower lowers = true → isDigit d = true →
  matchJusticeName ((initials +:+ String cap lowers) +:+ String d EmptyString)
  = Some (initials, String cap lowers, String d EmptyString).
Proof.
  intros Hine Hi Hc Hlne Hl Hd. unfold matchJusticeName.
  rewrite splitLast_snoc, Hd.
  rewrite spanUpper_identifier, splitLast_snoc by done.
  destruct initials as [|i0 more]; [done|].
  destruct lowers as [|l0 lowers']; [done|]. by rewrite Hl.
Qed.

(** X6. An identifier made of one or more capital initials, a surname of
    a capital and one or more lower-case letters, and possibly one final
    digit is shown as the initials each followed by a period, a space and
    the surname; the digit 1 adds " (I)" and any other digit " (II)". *)
Theorem formatJusticeName_of_identifier (initials : string) (cap : ascii)
    (lowers : string) :
  initials ≠ EmptyString → allUpper initials = true → isUpper cap = true →
  lowers ≠ EmptyString → allLower lowers = true →
  formatJusticeName (initials +:+ String cap lowers)
    = dotted initials +:+ " " +:+ String cap lowers ∧
  ∀ d, isDigit d = true →
    formatJusticeName ((initials +:+ String cap lowers) +:+ String d EmptyString)
    = dotted initials +:+ " " +:+ String cap lowers
        +:+ (if bool_decide (d = "1"%char) then " (I)" else " (II)").
Proof.
  intros Hine Hi Hc Hlne Hl. split.
  - unfold formatJusticeName. rewrite matchJusticeName_plain by done.
    by rewrite append_nil_r.
  - intros d Hd. unfold formatJusticeName.
    rewrite matchJusticeName_digit by done.
    do 2 f_equal. rewrite append_cons. f_equal.
    case_bool_decide as H1; case_bool_decide as H2; try done.
    + injection H1 as ->. done.
    + subst d. done.
Qed.

Lemma formatJusticeName_of_identifier_witness :
  formatJusticeName "HLBlack" = "H.L. Black" ∧
  formatJusticeName "JHarlan2" = "J. Harlan (II)".
Proof.
  destruct (formatJusticeName_of_identifier "HL" "B"%char "lack") as [Hplain _];
    [discriminate|reflexivity|reflexivity|discriminate|reflexivity|].
  destruct (formatJusticeName_of_identifier "J" "H"%char "arlan") as [_ Hdigit];
    [discriminate|reflexivity|reflexivity|discriminate|reflexivity|].
  split; [exact Hplain|]. exact (Hdigit "2"%char eq_refl).
Defined.

Lemma spanUpper_dotted i0 y :
  spanUpper (String i0 (String "."%char y))
  = if isUpper i0 then (String i0 EmptyString, String "."%char y)
    else (EmptyString, String i0 (String "."%char y)).
Proof. reflexivity. Qed.

Lemma matchJusticeName_dotted i0 x :
  matchJusticeName (String i0 (String "."%char x)) = None.
Proof.
  unfold matchJusticeName. cbn [splitLast].
  destruct (splitLast x) as [[b l]|].
  - destruct (isDigit l); rewrite spanUpper_dotted; by destruct (isUpper i0).
  - change (isDigit "."%char) with false. cbv iota.
    rewrite spanUpper_dotted. by destruct (isUpper i0).
Qed.

Lemma matchJusticeName_initials s initials lastName digit :
  matchJusticeName s = Some (initials, lastName, digit) →
  ∃ i0 more, initials = String i0 more.
Proof.
  unfold matchJusticeName.
  destruct (match splitLast s with
            | Some (b, l) => if isDigit l then (b, String l EmptyString) else (s, EmptyString)
            | None => (s, EmptyString)
            end) as [body dg].
  destruct (spanUpper body) as [uppers lowers].
  destruct (splitLast uppers) as [[[|i0 more] cp]|]; [done| |done].
  destruct lowers; [done|]. destruct (allLower _); [|done].
  intros [= <- _ _]. by eexists _, _.
Qed.

(** X7. [formatJusticeName] leaves a name it has produced unchanged:
    applying it twice gives the same text as applying it once. *)
Theorem formatJusticeName_idempotent (justiceName : string) :
  formatJusticeName (formatJusticeName justiceName) = formatJusticeName justiceName.
Proof.
  unfold formatJusticeName at 2 3.
  destruct (matchJusticeName justiceName) as [[[initials lastName] digit]|] eqn:Hm.
  - destruct (matchJusticeName_initials _ _ _ _ Hm) as (i0 & more & ->).
    cbn [dotted]. rewrite !append_cons.
    unfold formatJusticeName. by rewrite matchJusticeName_dotted.
  - unfold formatJusticeName. by rewrite Hm.
Qed.

End display_name.

(** ** Invariants of the canonicalizer *)

Section canonicalizer_further.
Import JS Preprocess Samples.
Import Vocabulary (votesKnown, votesValid, membersDerived).

Lemma accepted_Some_inv (row : Row) c t j m :
  accepted row = Some (c, t, j, m) →
  caseIdOf row = Some c ∧ termOf row = Some t ∧
  justiceNameOf row = Some j ∧ majorityOf row = Some m ∧
  c ≠ EmptyString ∧ j ≠ EmptyString ∧ (m = 1 ∨ m = 2).
Proof.
  unfold accepted.
  destruct (caseIdOf row) as [c'|]; [|done].
  destruct (termOf row) as [t'|]; [|done].
  destruct (justiceNameOf row) as [j'|]; [|done].
  destruct (majorityOf row) as [m'|]; [|done].
  destruct c' as [|x c']; [done|]. destruct j' as [|y j']; [done|]. simpl.
  destruct (decide (m' = 1)) as [->|H1].
  - rewrite bool_decide_eq_false_2 by auto. simpl. intros [= <- <- <- <-].
    split_and!; auto.
  - destruct (decide (m' = 2)) as [->|H2].
    + rewrite (bool_decide_eq_false_2 (2 ≠ 2)) by auto. rewrite andb_false_r.
      intros [= <- <- <- <-]. split_and!; auto.
    + by rewrite !bool_decide_eq_true_2.
Qed.

(** One record keeps every member that is present and can only widen its
    interval of terms. *)
Lemma justices_processRow_mono (st : State) (row : Row) j e :
  justices st !! j = Some e →
  ∃ e', justices (processRow st row) !! j = Some e' ∧
        name e' = name e ∧ party e' = party e ∧
        firstTerm e' ≤ firstTerm e ∧ lastTerm e ≤ lastTerm e'.
Proof.
  intros He. rewrite justices_processRow.
  destruct (accepted row) as [[[[c t] j'] m]|];
    [|exists e; split_and!; (done || lia)].
  destruct (decide (j' = j)) as [->|]; [|exists e; split_and!; (done || lia)].
  rewrite He. eexists. split; [done|]. simpl. split_and!; (done || lia).
Qed.

Lemma votesKnown_processRow (st : State) (row : Row) :
  votesKnown st → votesKnown (processRow st row).
Proof.
  intros Hst c e j. rewrite cases_processRow, justices_processRow.
  destruct (accepted row) as [[[[c0 t] j0] m]|]; [|apply Hst].
  destruct (decide (j0 = j)) as [->|Hj]; [by eexists|].
  destruct (decide (c0 = c)) as [->|Hc]; [|apply Hst].
  intros [= <-]. simpl. rewrite lookup_setProperty, decide_False by tauto.
  destruct (cases st !! c) as [e0|] eqn:He0; simpl.
  - by apply (Hst c e0 j).
  - rewrite lookup_empty. by intros [? ?].
Qed.

(** X8. After any sequence of records, every member that has a vote in
    some case is a key of the member map. *)
Theorem voters_are_members (rows : list Row) (caseId justiceName : string)
    (e : CaseEntry) :
  cases (processData rows) !! caseId = Some e →
  is_Some (votes e !! justiceName) →
  is_Some (justices (processData rows) !! justiceName).
Proof.
  revert caseId e justiceName. change (votesKnown (processData rows)).
  induction rows as [|row rows IH] using rev_ind.
  - intros c e j. unfold processData. simpl. by rewrite lookup_empty.
  - rewrite processData_snoc. by apply votesKnown_processRow.
Qed.

Lemma voters_are_members_witness :
  cases (processData [rowA1; rowB1; rowA2]) !! "C1"
    = Some {| term := 1960; votes := {[ "A" := 2; "B" := 2 ]} |} ∧
  is_Some (({[ "A" := 2; "B" := 2 ]} : gmap string Z) !! "B") ∧
  is_Some (justices (processData [rowA1; rowB1; rowA2]) !! "B").
Proof.
  assert (cases (processData [rowA1; rowB1; rowA2]) !! "C1"
          = Some {| term := 1960; votes := {[ "A" := 2; "B" := 2 ]} |}) as H1
    by (vm_compute; reflexivity).
  assert (is_Some (({[ "A" := 2; "B" := 2 ]} : gmap string Z) !! "B")) as H2
    by (vm_compute; eexists; reflexivity).
  split; [exact H1|]. split; [exact H2|].
  exact (voters_are_members [rowA1; rowB1; rowA2] "C1" "B" _ H1 H2).
Defined.

Lemma votesValid_processRow (st : State) (row : Row) :
  votesValid st → votesValid (processRow st row).
Proof.
  intros Hst c e. rewrite cases_processRow.
  destruct (accepted row) as [[[[c0 t] j0] m]|] eqn:Hacc; [|apply Hst].
  destruct (decide (c0 = c)) as [->|Hc]; [|apply Hst].
  apply accepted_Some_inv in Hacc as (_ & _ & _ & _ & _ & _ & Hm).
  intros [= <-]. simpl. split.
  - rewrite lookup_setProperty, decide_False by tauto.
    destruct (cases st !! c) as [e0|] eqn:He0; simpl; [|done].
    by apply (Hst c e0).
  - intros j m'. rewrite lookup_setProperty.
    destruct (decide (j0 = j ∧ j0 ≠ "__proto__")); simpl; [by intros [= <-]|].
    destruct (cases st !! c) as [e0|] eqn:He0; simpl.
    + by apply (Hst c e0).
    + by rewrite lookup_empty.
Qed.

Lemma votesValid_processData (rows : list Row) : votesValid (processData rows).
Proof.
  induction rows as [|row rows IH] using rev_ind.
  - intros c e. unfold processData. simpl. by rewrite lookup_empty.
  - rewrite processData_snoc. by apply votesValid_processRow.
Qed.

Lemma lastVote_is_Some (rows : list Row) (row : Row) c t j m :
  row ∈ rows → accepted row = Some (c, t, j, m) →
  is_Some (Spec.lastVote rows c j).
Proof.
  intros Hin Hacc. unfold Spec.lastVote. apply last_is_Some.
  intros Hnil.
  assert (m ∈ omap (Spec.voteFor c j) rows) as Hm.
  { apply list_elem_of_omap. exists row. split; [done|].
    unfold Spec.voteFor. rewrite Hacc. by rewrite decide_True. }
  rewrite Hnil in Hm. by apply elem_of_nil in Hm.
Qed.

(** X9. After any sequence of records, no case holds a vote under the name
    [__proto__], every stored outcome code is 1 or 2, and every case holds a
    vote of each member other than [__proto__] that an accepted record of
    the case names. A case all of whose accepted records name [__proto__]
    therefore has no vote at all. *)
Theorem cases_hold_valid_votes (rows : list Row) (caseId : string) (e : CaseEntry) :
  cases (processData rows) !! caseId = Some e →
  votes e !! "__proto__" = None ∧
  (∀ j m, votes e !! j = Some m → m = 1 ∨ m = 2) ∧
  (∀ row t j m, row ∈ rows → accepted row = Some (caseId, t, j, m) →
     j ≠ "__proto__" → is_Some (votes e !! j)) ∧
  ((∀ row t j m, row ∈ rows → accepted row = Some (caseId, t, j, m) →
      j = "__proto__") → votes e = ∅).
Proof.
  intros He. destruct (votesValid_processData rows caseId e He) as [Hp Hv].
  split_and!; [done|done| |].
  - intros row t j m Hin Hacc Hproto.
    pose proof (lastVote_processData rows caseId j Hproto) as Hl.
    rewrite He in Hl. simpl in Hl. rewrite Hl. by eapply lastVote_is_Some.
  - intros Hall. apply map_eq. intros j. rewrite lookup_empty.
    destruct (decide (j = "__proto__")) as [->|Hproto]; [done|].
    pose proof (lastVote_processData rows caseId j Hproto) as Hl.
    rewrite He in Hl. simpl in Hl. rewrite Hl.
    unfold Spec.lastVote.
    destruct (last (omap (Spec.voteFor caseId j) rows)) as [m|] eqn:Hlast; [|done].
    exfalso. apply last_Some_elem_of in Hlast.
    apply list_elem_of_omap in Hlast as (row & Hin & Hvote).
    unfold Spec.voteFor in Hvote.
    destruct (accepted row) as [[[[c0 t0] j0] m0]|] eqn:Hacc; [|done].
    destruct (decide (c0 = caseId ∧ j0 = j)) as [[-> ->]|]; [|done].
    apply Hproto. by eapply Hall.
Qed.

Lemma cases_hold_valid_votes_witness :
  cases (processData [rowA1; rowB1; rowCode9]) !! "C1"
    = Some {| term := 1960; votes := {[ "A" := 1; "B" := 2 ]} |} ∧
  ({[ "A" := 1; "B" := 2 ]} : gmap string Z) !! "__proto__" = None ∧
  (∀ j m, ({[ "A" := 1; "B" := 2 ]} : gmap string Z) !! j = Some m → m = 1 ∨ m = 2) ∧
  is_Some (({[ "A" := 1; "B" := 2 ]} : gmap string Z) !! "B").
Proof.
  assert (cases (processData [rowA1; rowB1; rowCode9]) !! "C1"
          = Some {| term := 1960; votes := {[ "A" := 1; "B" := 2 ]} |}) as H1
    by (vm_compute; reflexivity).
  destruct (cases_hold_valid_votes [rowA1; rowB1; rowCode9] "C1" _ H1)
    as (Hp & Hv & Hm & _).
  split; [exact H1|]. split; [exact Hp|]. split; [exact Hv|].
  apply (Hm rowB1 1955 "B" 2); [right; left|vm_compute; reflexivity|discriminate].
Defined.

Lemma membersDerived_processRow (st : State) (row : Row) :
  membersDerived st → membersDerived (processRow st row).
Proof.
  intros Hst j e. rewrite justices_processRow.
  destruct (accepted row) as [[[[c0 t] j0] m]|]; [|apply Hst].
  destruct (decide (j0 = j)) as [->|]; [|apply Hst].
  destruct (justices st !! j) as [e0|] eqn:He0; intros [= <-]; simpl; [|done].
  by apply Hst.
Qed.

Lemma JUSTICE_PARTY_codes (justiceName code : string) :
  JUSTICE_PARTY !! justiceName = Some code →
  code ≠ EmptyString ∧ justiceName ∉ objectPrototypeNames.
Proof.
  intros Hcode.
  assert (map_Forall (λ k v, v ≠ EmptyString ∧ k ∉ objectPrototypeNames) JUSTICE_PARTY)
    as Hall.
  { apply (bool_decide_unpack _). vm_compute. exact I. }
  exact (Hall _ _ Hcode).
Qed.

Lemma partyOf_own (justiceName : string) :
  justiceName ∉ objectPrototypeNames →
  partyOf justiceName = partyCode <$> JUSTICE_PARTY !! justiceName.
Proof.
  intros Hown. unfold partyOf.
  destruct (JUSTICE_PARTY !! justiceName) as [code|] eqn:Hcode; simpl.
  - apply JUSTICE_PARTY_codes in Hcode as [Hne _].
    by rewrite bool_decide_eq_false_2.
  - by rewrite bool_decide_eq_false_2.
Qed.

Lemma partyOf_inherited (justiceName : string) :
  justiceName ∈ objectPrototypeNames →
  partyOf justiceName = Some (inheritedProperty justiceName).
Proof.
  intros Hin. unfold partyOf.
  destruct (JUSTICE_PARTY !! justiceName) as [code|] eqn:Hcode.
  - by apply JUSTICE_PARTY_codes in Hcode as [_ Hno].
  - by rewrite bool_decide_eq_true_2.
Qed.

(** X10. After any sequence of records, the display name of every member
    is [formatJusticeName] of its identifier and its party is what
    [JUSTICE_PARTY[justiceName] || null] gives for that identifier: for an
    identifier that is not a name of [Object.prototype], the code of the
    party table, or absent when the table has none; for a name of
    [Object.prototype], the inherited property of that name. Later records
    of the member never change the two. *)
Theorem member_name_and_party (rows : list Row) (justiceName : string)
    (e : JusticeEntry) :
  justices (processData rows) !! justiceName = Some e →
  name e = formatJusticeName justiceName ∧
  party e = partyOf justiceName ∧
  (justiceName ∉ objectPrototypeNames →
     party e = partyCode <$> JUSTICE_PARTY !! justiceName) ∧
  (justiceName ∈ objectPrototypeNames →
     party e = Some (inheritedProperty justiceName)).
Proof.
  intros He.
  assert (membersDerived (processData rows)) as Hall.
  { clear. induction rows as [|row rows IH] using rev_ind.
    - intros j e. unfold processData. simpl. by rewrite lookup_empty.
    - rewrite processData_snoc. by apply membersDerived_processRow. }
  destruct (Hall _ _ He) as [Hname Hparty]. split_and!; [done|done| |].
  - intros Hown. rewrite Hparty. by apply partyOf_own.
  - intros Hin. rewrite Hparty. by apply partyOf_inherited.
Qed.

Lemma member_name_and_party_witness :
  ∃ e, justices (processData [rowOf "C1" "1970" "HABlackmun" "1"]) !! "HABlackmun" = Some e ∧
       name e = "H.A. Blackmun" ∧ party e = Some (partyCode "R").
Proof.
  eexists. split; [vm_compute; reflexivity|].
  destruct (member_name_and_party [rowOf "C1" "1970" "HABlackmun" "1"] "HABlackmun" _
              ltac:(vm_compute; reflexivity)) as (Hname & Hparty & _ & _).
  split; [exact Hname|exact Hparty].
Defined.

(** X11. After any sequence of records, the member of every accepted
    record exists and the term of that record lies between the member's
    first and last term. *)
Theorem record_term_within_member_terms (rows : list Row) (row : Row)
    (c : string) (t : Z) (j : string) (m : Z) :
  row ∈ rows → accepted row = Some (c, t, j, m) →
  ∃ e, justices (processData rows) !! j = Some e ∧
       firstTerm e ≤ t ≤ lastTerm e.
Proof.
  intros Hin Hacc. induction rows as [|r rows IH] using rev_ind.
  - by apply elem_of_nil in Hin.
  - rewrite processData_snoc.
    apply elem_of_app in Hin as [Hin|Hin].
    + destruct (IH Hin) as (e & He & Hb).
      destruct (justices_processRow_mono (processData rows) r j e He)
        as (e' & He' & _ & _ & Hf & Hl).
      exists e'. split; [done|]. lia.
    + apply list_elem_of_singleton in Hin as ->.
      rewrite justices_processRow, Hacc, decide_True by done.
      eexists. split; [done|].
      destruct (justices (processData rows) !! j); simpl; lia.
Qed.

Lemma record_term_within_member_terms_witness :
  rowB1 ∈ [rowA1; rowB1; rowA2] ∧
  accepted rowB1 = Some ("C1", 1955, "B", 2) ∧
  ∃ e, justices (processData [rowA1; rowB1; rowA2]) !! "B" = Some e ∧
       firstTerm e ≤ 1955 ≤ lastTerm e.
Proof.
  assert (rowB1 ∈ [rowA1; rowB1; rowA2]) as H1 by (right; left).
  assert (accepted rowB1 = Some ("C1", 1955, "B", 2)) as H2 by (vm_compute; reflexivity).
  split; [exact H1|]. split; [exact H2|].
  exact (record_term_within_member_terms _ _ _ _ _ _ H1 H2).
Defined.

(** X12. After any sequence of records, a case identifier is a key of the
    case map exactly when some accepted record carries it, and a member
    identifier is a key of the member map exactly when some accepted record
    carries it. *)
Theorem keys_are_those_of_accepted_records (rows : list Row) :
  (∀ c, is_Some (cases (processData rows) !! c)
        ↔ ∃ row t j m, row ∈ rows ∧ accepted row = Some (c, t, j, m)) ∧
  (∀ j, is_Some (justices (processData rows) !! j)
        ↔ ∃ row c t m, row ∈ rows ∧ accepted row = Some (c, t, j, m)).
Proof.
  induction rows as [|r rows [IHc IHj]] using rev_ind.
  - split; intros k; unfold processData; simpl; rewrite lookup_empty;
      (split; [by intros [? ?]|]); intros (row & ? & ? & ? & Hin & _);
      by apply elem_of_nil in Hin.
  - rewrite processData_snoc. split.
    + intros c. rewrite cases_processRow.
      destruct (accepted r) as [[[[c0 t0] j0] m0]|] eqn:Hacc.
      * destruct (decide (c0 = c)) as [->|Hne].
        -- split; [|by eexists]. intros _. exists r, t0, j0, m0.
           split; [apply elem_of_app; right; by left|done].
        -- rewrite IHc. split.
           ++ intros (row & t & j & m & Hin & Hrow). exists row, t, j, m.
              split; [apply elem_of_app; by left|done].
           ++ intros (row & t & j & m & Hin & Hrow).
              apply elem_of_app in Hin as [Hin|Hin]; [by eexists _, _, _, _|].
              apply list_elem_of_singleton in Hin as ->. congruence.
      * rewrite IHc. split.
        -- intros (row & t & j & m & Hin & Hrow). exists row, t, j, m.
           split; [apply elem_of_app; by left|done].
        -- intros (row & t & j & m & Hin & Hrow).
           apply elem_of_app in Hin as [Hin|Hin]; [by eexists _, _, _, _|].
           apply list_elem_of_singleton in Hin as ->. congruence.
    + intros j. rewrite justices_processRow.
      destruct (accepted r) as [[[[c0 t0] j0] m0]|] eqn:Hacc.
      * destruct (decide (j0 = j)) as [->|Hne].
        -- split; [|by eexists]. intros _. exists r, c0, t0, m0.
           split; [apply elem_of_app; right; by left|done].
        -- rewrite IHj. split.
           ++ intros (row & c & t & m & Hin & Hrow). exists row, c, t, m.
              split; [apply elem_of_app; by left|done].
           ++ intros (row & c & t & m & Hin & Hrow).
              apply elem_of_app in Hin as [Hin|Hin]; [by eexists _, _, _, _|].
              apply list_elem_of_singleton in Hin as ->. congruence.
      * rewrite IHj. split.
        -- intros (row & c & t & m & Hin & Hrow). exists row, c, t, m.
           split; [apply elem_of_app; by left|done].
        -- intros (row & c & t & m & Hin & Hrow).
           apply elem_of_app in Hin as [Hin|Hin]; [by eexists _, _, _, _|].
           apply list_elem_of_singleton in Hin as ->. congruence.
Qed.

Lemma keys_are_those_of_accepted_records_witness :
  is_Some (cases (processData [rowA1; rowCode9]) !! "C1") ∧
  ¬ is_Some (justices (processData [rowCode9]) !! "A").
Proof.
  destruct (keys_are_those_of_accepted_records [rowA1; rowCode9]) as [Hc _].
  destruct (keys_are_those_of_accepted_records [rowCode9]) as [_ Hj].
  split.
  - apply Hc. exists rowA1, 1960, "A", 1. split; [by left|vm_compute; reflexivity].
  - intros (row & c & t & m & Hin & Hrow)%Hj.
    apply list_elem_of_singleton in Hin as ->. vm_compute in Hrow. discriminate.
Defined.

End canonicalizer_further.

(** ** Who is active, and the shape of the matrix *)

Section engine_further.
Import JS App Tally Vocabulary Samples.

Lemma elem_of_setAdd (s : list string) x y : y ∈ setAdd s x ↔ y ∈ s ∨ y = x.
Proof.
  unfold setAdd. destruct (decide (x ∈ s)) as [Hin|Hnin].
  - split; [by left|]. intros [?| ->]; done.
  - rewrite elem_of_app, list_elem_of_singleton. done.
Qed.

Lemma elem_of_foldl_setAdd (ks s : list string) y :
  y ∈ foldl setAdd s ks ↔ y ∈ s ∨ y ∈ ks.
Proof.
  revert s. induction ks as [|k ks IH]; intros s; simpl.
  - split; [by left|]. intros [?|Hin]; [done|]. by apply elem_of_nil in Hin.
  - rewrite IH, elem_of_setAdd, elem_of_cons. tauto.
Qed.

Lemma elem_of_foldl_cases (cs : list Case) (s : list string) y :
  y ∈ foldl (λ s c, foldl setAdd s (keys (votes c))) s cs
  ↔ y ∈ s ∨ ∃ c, c ∈ cs ∧ is_Some (votes c !! y).
Proof.
  revert s. induction cs as [|c cs IH]; intros s; simpl.
  - split; [by left|]. intros [?|(c & Hin & _)]; [done|]. by apply elem_of_nil in Hin.
  - rewrite IH, elem_of_foldl_setAdd, elem_of_keys. split.
    + intros [[?|?]|(c' & Hin & Hv)]; [by left| |].
      * right. exists c. split; [by left|done].
      * right. exists c'. split; [by right|done].
    + intros [?|(c' & Hin & Hv)]; [by left; left|].
      apply elem_of_cons in Hin as [->|Hin]; [by left; right|].
      right. by exists c'.
Qed.

Lemma elem_of_justiceSet (cs : list Case) y :
  y ∈ justiceSet cs ↔ ∃ c, c ∈ cs ∧ is_Some (votes c !! y).
Proof.
  unfold justiceSet. rewrite elem_of_foldl_cases. split; [|by right].
  intros [Hin|?]; [by apply elem_of_nil in Hin|done].
Qed.

(** X13. The list returned by [getAllJusticesInRange] holds exactly the
    justices that have a vote in one of the given cases, each of them
    once. *)
Theorem all_justices_are_the_voters (data : Dataset) (cs : list Case) :
  (∀ j, j ∈ getAllJusticesInRange data cs ↔ ∃ c, c ∈ cs ∧ is_Some (votes c !! j)) ∧
  NoDup (getAllJusticesInRange data cs).
Proof.
  split; [|apply NoDup_getAllJusticesInRange].
  intros j. unfold getAllJusticesInRange.
  rewrite merge_sort_Permutation. apply elem_of_justiceSet.
Qed.

(** X14. The active justices are the justices in range that are selected:
    the list is the list of all justices in range when the selection is
    [null], and otherwise the members of that list that are in the
    selection, in the same order; a selected justice without a vote in the
    given cases is not listed. *)
Theorem active_justices_are_the_selected_voters (data : Dataset)
    (sel : option (gset string)) (cs : list Case) :
  (∀ j, j ∈ getActiveJustices data sel cs
        ↔ j ∈ getAllJusticesInRange data cs ∧ isSelected sel j) ∧
  getActiveJustices data sel cs `sublist_of` getAllJusticesInRange data cs ∧
  getActiveJustices data None cs = getAllJusticesInRange data cs.
Proof.
  split_and!; [|by destruct sel; [apply sublist_filter|]|done].
  intros j. unfold getActiveJustices, isSelected. destruct sel as [s|].
  - rewrite list_elem_of_filter. tauto.
  - tauto.
Qed.

Lemma filter_none {A} (P : A → Prop) `{∀ x, Decision (P x)} (l : list A) :
  (∀ x, x ∈ l → ¬ P x) → filter P l = [].
Proof.
  induction l as [|x l IH]; intros Hl; [done|].
  rewrite filter_cons, decide_False by (apply Hl; by left).
  apply IH. intros y Hy. apply Hl. by right.
Qed.

(** X15. When no case of the dataset has its term in the window, in
    particular when the window is inverted, there is no active justice, the
    matrix is empty and no range is computed. *)
Theorem empty_window_gives_empty_view (data : Dataset) (flt : Filter) :
  (∀ c, c ∈ cases data → ¬ (yearStart flt ≤ term c ∧ term c ≤ yearEnd flt)) →
  renderMatrix data flt = {| members := []; matrix := []; range := None |}.
Proof.
  intros Hnone. unfold renderMatrix, filterCases.
  rewrite (filter_none _ _ Hnone).
  by destruct (selectedJustices flt).
Qed.

Lemma empty_window_gives_empty_view_witness :
  renderMatrix twoMembers
    {| yearStart := 2000; yearEnd := 1900; selectedJustices := None; minCases := 1 |}
  = {| members := []; matrix := []; range := None |}.
Proof.
  apply (empty_window_gives_empty_view twoMembers).
  simpl. intros c Hc [H1 H2]. lia.
Defined.

Lemma shape_update f i j n (m : Matrix) :
  length m = n ∧ Forall (λ row, length row = n) m →
  length (update f i j m) = n ∧ Forall (λ row, length row = n) (update f i j m).
Proof.
  intros [Hlen Hrows]. unfold update. rewrite length_alter. split; [done|].
  apply Forall_alter; [done|]. intros row _ Hrow. by rewrite length_alter.
Qed.

Lemma shape_countPair idx c vi vj n (m : Matrix) :
  length m = n ∧ Forall (λ row, length row = n) m →
  length (countPair idx c vi vj m) = n
  ∧ Forall (λ row, length row = n) (countPair idx c vi vj m).
Proof.
  intros Hm. unfold countPair.
  destruct (idx !! vi), (idx !! vj); try done.
  destruct (bool_decide _); repeat apply shape_update; done.
Qed.

Lemma shape_countVoters idx c voters n (m : Matrix) :
  length m = n ∧ Forall (λ row, length row = n) m →
  length (countVoters idx c voters m) = n
  ∧ Forall (λ row, length row = n) (countVoters idx c voters m).
Proof.
  revert m. induction voters as [|v rest IH]; intros m Hm; [done|].
  cbn [countVoters]. apply IH.
  generalize (v :: rest). intros ws. revert m Hm.
  induction ws as [|w ws IHw]; intros m Hm; [done|].
  simpl. apply IHw. by apply shape_countPair.
Qed.

(** X16. For every list of cases and every list of [n] justices the
    matrix has [n] rows of [n] cells each. *)
Theorem matrix_is_square (cs : list Case) (justices : list string) :
  length (calculateConcurrence cs justices) = length justices ∧
  Forall (λ row, length row = length justices) (calculateConcurrence cs justices).
Proof.
  unfold calculateConcurrence.
  assert (∀ m : Matrix,
            length m = length justices ∧ Forall (λ row, length row = length justices) m →
            length (foldl (countCase (justiceIndexOf justices)) m cs) = length justices
            ∧ Forall (λ row, length row = length justices)
                (foldl (countCase (justiceIndexOf justices)) m cs)) as Hfold.
  { induction cs as [|c cs IH]; intros m Hm; [done|].
    simpl. apply IH. by apply shape_countVoters. }
  destruct (Hfold (initMatrix (length justices))) as [Hlen Hrows].
  { unfold initMatrix. rewrite length_replicate. split; [done|].
    apply Forall_replicate. by rewrite length_replicate. }
  rewrite length_fmap. split; [done|].
  apply Forall_fmap. eapply Forall_impl; [done|].
  intros row Hrow. simpl. by rewrite length_fmap.
Qed.

End engine_further.

(** ** The counts of a pair of justices *)

Section pair_counts.
Import JS App Tally Vocabulary Samples.

Lemma ind_iff P Q `{Decision P, Decision Q} : (P ↔ Q) → ind P = ind Q.
Proof. intros HPQ. unfold ind. repeat destruct (decide _); tauto. Qed.

Lemma ind_false P `{Decision P} : ¬ P → ind P = 0.
Proof. intros HP. unfold ind. by rewrite decide_False. Qed.

Lemma justiceIndexOf_iff (l : list string) i A v :
  NoDup l → l !! i = Some A → justiceIndexOf l !! v = Some i ↔ v = A.
Proof.
  intros Hnd Hi. split.
  - intros Hv%justiceIndexOf_Some. congruence.
  - intros ->. by apply justiceIndexOf_NoDup.
Qed.

Lemma pairTotal_offdiag (l : list string) i j A B v w :
  NoDup l → l !! i = Some A → l !! j = Some B →
  pairTotal (justiceIndexOf l) i j v w
  = ind (v = A ∧ w = B) + ind (v = B ∧ w = A).
Proof.
  intros Hnd Hi Hj. unfold pairTotal.
  pose proof (justiceIndexOf_iff l i A v Hnd Hi) as HvA.
  pose proof (justiceIndexOf_iff l j B v Hnd Hj) as HvB.
  pose proof (justiceIndexOf_iff l i A w Hnd Hi) as HwA.
  pose proof (justiceIndexOf_iff l j B w Hnd Hj) as HwB.
  destruct (justiceIndexOf l !! v) as [ji|]; [destruct (justiceIndexOf l !! w) as [jj|]|].
  - unfold hits. f_equal; apply ind_iff.
    + rewrite <- HvA, <- HwB. split; intros [? ?]; split; congruence.
    + rewrite <- HvB, <- HwA. split; intros [? ?]; split; congruence.
  - assert (w ≠ A) by (intros Hw; apply HwA in Hw; discriminate).
    assert (w ≠ B) by (intros Hw; apply HwB in Hw; discriminate).
    rewrite !ind_false; [done|..]; intros [? ?]; done.
  - assert (v ≠ A) by (intros Hv; apply HvA in Hv; discriminate).
    assert (v ≠ B) by (intros Hv; apply HvB in Hv; discriminate).
    rewrite !ind_false; [done|..]; intros [? ?]; done.
Qed.

Lemma sumZ_ind_member (B : string) (rest : list string) :
  NoDup rest → sumZ ((λ w, ind (w = B)) <$> rest) = ind (B ∈ rest).
Proof.
  induction 1 as [|v rest Hv Hnd IH].
  - rewrite ind_false; [done|]. apply not_elem_of_nil.
  - rewrite fmap_cons. change (sumZ (?x :: ?l)) with (x + sumZ l). rewrite IH.
    unfold ind. destruct (decide (v = B)) as [->|Hne].
    + rewrite (decide_False (P := B ∈ rest)) by done.
      rewrite decide_True; [done|by left].
    + destruct (decide (B ∈ rest)) as [Hin|Hnin].
      * rewrite decide_True; [done|by right].
      * rewrite decide_False; [done|].
        intros [?|?]%elem_of_cons; [congruence|done].
Qed.

Lemma sumPairs_pair (A B : string) (voters : list string) :
  A ≠ B → NoDup voters →
  sumPairs (λ v w, ind (v = A ∧ w = B) + ind (v = B ∧ w = A)) voters
  = ind (A ∈ voters ∧ B ∈ voters).
Proof.
  intros HAB. induction 1 as [|v rest Hv Hnd IH].
  - rewrite ind_false; [done|]. intros [Hin _]. by apply elem_of_nil in Hin.
  - cbn [sumPairs]. rewrite IH, fmap_cons.
    change (sumZ (?x :: ?l)) with (x + sumZ l).
    rewrite (ind_false (v = A ∧ v = B)), (ind_false (v = B ∧ v = A))
      by (intros [? ?]; congruence).
    destruct (decide (v = A)) as [->|HvA]; [|destruct (decide (v = B)) as [->|HvB]].
    + rewrite (sumZ_ext _ (λ w, ind (w = B))).
      2:{ intros w. rewrite (ind_false (A = B ∧ w = A)) by (intros [? ?]; done).
          rewrite Z.add_0_r. apply ind_iff. tauto. }
      rewrite sumZ_ind_member by done.
      rewrite (ind_false (A ∈ rest ∧ B ∈ rest)) by (intros [? ?]; done).
      rewrite !Z.add_0_l, Z.add_0_r. apply ind_iff.
      rewrite !elem_of_cons. split; [auto|]. intros [_ [?|?]]; [congruence|done].
    + rewrite (sumZ_ext _ (λ w, ind (w = A))).
      2:{ intros w. rewrite (ind_false (B = A ∧ w = B)) by (intros [? ?]; congruence).
          rewrite Z.add_0_l. apply ind_iff. tauto. }
      rewrite sumZ_ind_member by done.
      rewrite (ind_false (A ∈ rest ∧ B ∈ rest)) by (intros [? ?]; done).
      rewrite !Z.add_0_l, Z.add_0_r. apply ind_iff.
      rewrite !elem_of_cons. split; [auto|]. intros [[?|?] _]; [congruence|done].
    + rewrite sumZ_zero.
      2:{ intros w _. rewrite !ind_false; [done|..]; intros [? ?]; congruence. }
      rewrite !Z.add_0_l. apply ind_iff. rewrite !elem_of_cons.
      split; [tauto|]. intros [[?|?] [?|?]]; (congruence || done).
Qed.

Lemma sumPairs_scale (e : bool) g (voters : list string) :
  sumPairs (λ v w, if e then g v w else 0) voters
  = if e then sumPairs g voters else 0.
Proof.
  destruct e; [done|]. induction voters as [|v rest IH]; [done|].
  cbn [sumPairs]. rewrite IH, sumZ_zero; [done|]. done.
Qed.

Lemma caseTotal_offdiag (l : list string) i j A B c :
  NoDup l → l !! i = Some A → l !! j = Some B → i ≠ j →
  caseTotal (justiceIndexOf l) i j c
  = ind (is_Some (votes c !! A) ∧ is_Some (votes c !! B)).
Proof.
  intros Hnd Hi Hj Hij. unfold caseTotal.
  assert (A ≠ B) as HAB.
  { intros ->. apply Hij. by eapply NoDup_lookup. }
  rewrite (sumPairs_ext _ _ _ (λ v w, pairTotal_offdiag l i j A B v w Hnd Hi Hj)).
  rewrite sumPairs_pair by (done || apply NoDup_votersOf).
  apply ind_iff. rewrite !elem_of_votersOf.
  pose proof (justiceIndexOf_is_Some l A) as HA.
  pose proof (justiceIndexOf_is_Some l B) as HB.
  apply list_elem_of_lookup_2 in Hi, Hj. tauto.
Qed.

Lemma caseAgreed_offdiag (l : list string) i j A B c :
  NoDup l → l !! i = Some A → l !! j = Some B → i ≠ j →
  caseAgreed (justiceIndexOf l) i j c
  = ind ((is_Some (votes c !! A) ∧ is_Some (votes c !! B))
         ∧ votes c !! A = votes c !! B).
Proof.
  intros Hnd Hi Hj Hij. unfold caseAgreed.
  rewrite (sumPairs_ext _
             (λ v w, if bool_decide (votes c !! A = votes c !! B)
                     then pairTotal (justiceIndexOf l) i j v w else 0)).
  - rewrite sumPairs_scale. fold (caseTotal (justiceIndexOf l) i j c).
    rewrite (caseTotal_offdiag l i j A B c) by done.
    case_bool_decide as Heq.
    + apply ind_iff. tauto.
    + rewrite ind_false; [done|]. tauto.
  - intros v w. unfold pairAgreed.
    rewrite (pairTotal_offdiag l i j A B v w) by done.
    unfold ind.
    destruct (decide (v = A ∧ w = B)) as [[-> ->]|H1].
    { repeat case_bool_decide; congruence. }
    destruct (decide (v = B ∧ w = A)) as [[-> ->]|H2].
    { repeat case_bool_decide; congruence. }
    by repeat destruct (bool_decide _).
Qed.

Lemma sumZ_ind_filter {A} (P : A → Prop) `{∀ x, Decision (P x)} (l : list A) :
  sumZ ((λ x, ind (P x)) <$> l) = Z.of_nat (length (filter P l)).
Proof.
  induction l as [|x l IH]; [done|].
  rewrite fmap_cons, filter_cons. change (sumZ (?y :: ?k)) with (y + sumZ k).
  rewrite IH. unfold ind. destruct (decide (P x)); simpl; lia.
Qed.

Lemma offdiagonal_cell (cs : list Case) (l : list string) i j A B :
  NoDup l → l !! i = Some A → l !! j = Some B → i ≠ j →
  cellAt (calculateConcurrence cs l) i j
  = Some (setRate {| agreed := bothAgreed cs A B;
                     total := bothVoted cs A B;
                     rate := None |}).
Proof.
  intros Hnd Hi Hj Hij. rewrite cellAt_calculateConcurrence.
  pose proof (lookup_lt_Some _ _ _ Hi). pose proof (lookup_lt_Some _ _ _ Hj).
  rewrite decide_True by done.
  rewrite (sumZ_ext _ _ cs (λ c, caseAgreed_offdiag l i j A B c Hnd Hi Hj Hij)).
  rewrite (sumZ_ext _ _ cs (λ c, caseTotal_offdiag l i j A B c Hnd Hi Hj Hij)).
  by rewrite !sumZ_ind_filter.
Qed.

(** X17. For every dataset and filter, the cell of two different active
    members has [total] equal to the number of selected cases in which both
    have a vote and [agreed] equal to the number of those cases in which the
    two votes are the same: each such case counts once, no other case
    counts. *)
Theorem off_diagonal_counts (data : Dataset) (flt : Filter) (i j : nat)
    (A B : string) :
  let cs := filterCases data (yearStart flt) (yearEnd flt) in
  let view := renderMatrix data flt in
  members view !! i = Some A → members view !! j = Some B → i ≠ j →
  ∃ cell,
    cellAt (matrix view) i j = Some cell ∧
    total cell = bothVoted cs A B ∧
    agreed cell = bothAgreed cs A B.
Proof.
  intros cs view Hi Hj Hij. unfold view, renderMatrix in *.
  cbn [members matrix] in *. fold cs in Hi, Hj |- *.
  rewrite (offdiagonal_cell cs _ i j A B);
    [|apply NoDup_getActiveJustices|done..].
  eexists. split; [done|]. done.
Qed.

Lemma off_diagonal_counts_witness :
  members (renderMatrix twoMembers everything) !! 0%nat = Some "A" ∧
  members (renderMatrix twoMembers everything) !! 1%nat = Some "B" ∧
  ∃ cell,
    cellAt (matrix (renderMatrix twoMembers everything)) 0 1 = Some cell ∧
    total cell = 2 ∧ agreed cell = 1.
Proof.
  split; [vm_compute; reflexivity|]. split; [vm_compute; reflexivity|].
  destruct (off_diagonal_counts twoMembers everything 0 1 "A" "B")
    as (cell & Hc & Ht & Ha);
    [vm_compute; reflexivity|vm_compute; reflexivity|lia|].
  exists cell. split; [exact Hc|]. split; [exact Ht|exact Ha].
Defined.

(** X18. Changing the selection of justices does not change the cell of a
    pair that stays active: under two selections, with the same dataset and
    window, the cells of the same two members are equal, wherever the two
    members stand in the two lists. *)
Theorem selection_keeps_pair_cells (data : Dataset) (flt : Filter)
    (sel' : option (gset string)) (i j i' j' : nat) (A B : string) :
  let flt' := {| yearStart := yearStart flt; yearEnd := yearEnd flt;
                 selectedJustices := sel'; minCases := minCases flt |} in
  members (renderMatrix data flt) !! i = Some A →
  members (renderMatrix data flt) !! j = Some B →
  members (renderMatrix data flt') !! i' = Some A →
  members (renderMatrix data flt') !! j' = Some B →
  A ≠ B →
  cellAt (matrix (renderMatrix data flt)) i j
  = cellAt (matrix (renderMatrix data flt')) i' j'.
Proof.
  intros flt'. unfold flt', renderMatrix. cbn [members matrix yearStart yearEnd selectedJustices].
  intros Hi Hj Hi' Hj' HAB.
  rewrite (offdiagonal_cell _ _ i j A B);
    [|apply NoDup_getActiveJustices|done|done|congruence].
  rewrite (offdiagonal_cell _ _ i' j' A B);
    [done|apply NoDup_getActiveJustices|done|done|congruence].
Qed.

Lemma selection_keeps_pair_cells_witness :
  let flt' := {| yearStart := 1791; yearEnd := 2024;
                 selectedJustices := Some {[ "B"; "A" ]}; minCases := 1 |} in
  members (renderMatrix twoMembers everything) !! 0%nat = Some "A" ∧
  members (renderMatrix twoMembers flt') !! 1%nat = Some "B" ∧
  cellAt (matrix (renderMatrix twoMembers everything)) 0 1
  = cellAt (matrix (renderMatrix twoMembers flt')) 0 1.
Proof.
  intros flt'.
  split; [vm_compute; reflexivity|]. split; [vm_compute; reflexivity|].
  apply (selection_keeps_pair_cells twoMembers everything (Some {[ "B"; "A" ]})
           0 1 0 1 "A" "B");
    try (vm_compute; reflexivity). discriminate.
Defined.

End pair_counts.

(** ** The scale range and the drawing of a cell *)

Section scale_further.
Import JS App Tally Controls Vocabulary Samples.

Lemma widerThan_refl a : widerThan a a.
Proof. split; apply Qle_refl. Qed.

Lemma widerThan_trans a b c : widerThan a b → widerThan b c → widerThan a c.
Proof. intros [? ?] [? ?]. split; eapply Qle_trans; done. Qed.

Lemma scanCell_wider (m : Matrix) minCases i range j :
  widerThan range (scanCell m minCases i range j).
Proof.
  unfold scanCell. destruct (cellAt m i j) as [cell|]; [|apply widerThan_refl].
  destruct (rate cell) as [r|]; [|apply widerThan_refl].
  destruct (_ && _); [|apply widerThan_refl].
  split; simpl; [apply Q.le_min_l|apply Q.le_max_l].
Qed.

Lemma foldl_wider {B} (f : Q * Q → B → Q * Q) (l : list B) a :
  (∀ a x, widerThan a (f a x)) → widerThan a (foldl f a l).
Proof.
  intros Hf. revert a. induction l as [|x l IH]; intros a; simpl.
  - apply widerThan_refl.
  - eapply widerThan_trans; [apply Hf|apply IH].
Qed.

Lemma foldl_reaches {B} (f : Q * Q → B → Q * Q) (P : Q * Q → Prop)
    (l : list B) a x :
  (∀ a x, widerThan a (f a x)) → (∀ a b, widerThan a b → P a → P b) →
  x ∈ l → (∀ a, P (f a x)) → P (foldl f a l).
Proof.
  intros Hf HP Hx HPx.
  apply list_elem_of_split in Hx as (l1 & l2 & ->).
  rewrite foldl_app. simpl.
  eapply HP; [by apply foldl_wider|]. apply HPx.
Qed.

Lemma contains_wider (r : Q) a b :
  widerThan a b → (a.1 <= r)%Q ∧ (r <= a.2)%Q → (b.1 <= r)%Q ∧ (r <= b.2)%Q.
Proof. intros [? ?] [? ?]. split; eapply Qle_trans; done. Qed.

Lemma scaleRange_wider (m : Matrix) (n : nat) (minCases : Z) :
  widerThan (1%Q, 0%Q) (scaleRange m n minCases).
Proof.
  unfold scaleRange. apply foldl_wider. intros a i.
  apply foldl_wider. intros. apply scanCell_wider.
Qed.

Lemma scaleRange_contains (m : Matrix) (n : nat) (minCases : Z) i j cell r :
  (i < n)%nat → (j < n)%nat → i ≠ j →
  cellAt m i j = Some cell → rate cell = Some r → minCases ≤ total cell →
  ((scaleRange m n minCases).1 <= r)%Q ∧ (r <= (scaleRange m n minCases).2)%Q.
Proof.
  intros Hi Hj Hij Hcell Hrate Htotal. unfold scaleRange.
  apply (foldl_reaches _ (λ a, (a.1 <= r)%Q ∧ (r <= a.2)%Q) _ _ i).
  - intros a x. apply foldl_wider. intros. apply scanCell_wider.
  - intros a b. apply contains_wider.
  - apply elem_of_seq. lia.
  - intros a.
    apply (foldl_reaches _ (λ a, (a.1 <= r)%Q ∧ (r <= a.2)%Q) _ _ j).
    + intros. apply scanCell_wider.
    + intros a' b. apply contains_wider.
    + apply elem_of_seq. lia.
    + intros a'. unfold scanCell. rewrite Hcell, Hrate.
      rewrite !bool_decide_eq_true_2 by done. simpl.
      split; [apply Q.le_min_r|apply Q.le_max_r].
Qed.

(** X19. Every cell that takes part in the scan, that is every
    off-diagonal cell with a rate and with [total] at least [minCases], has
    its rate between the minimum and the maximum of the range; a range that
    has such a cell is therefore not inverted. *)
Theorem range_spans_the_scanned_rates (m : Matrix) (n : nat) (minCases : Z)
    (i j : nat) (cell : Cell) (r : Q) :
  (i < n)%nat → (j < n)%nat → i ≠ j →
  cellAt m i j = Some cell → rate cell = Some r → minCases ≤ total cell →
  ((scaleRange m n minCases).1 <= r)%Q ∧ (r <= (scaleRange m n minCases).2)%Q
  ∧ ((scaleRange m n minCases).1 <= (scaleRange m n minCases).2)%Q.
Proof.
  intros Hi Hj Hij Hcell Hrate Htotal.
  destruct (scaleRange_contains m n minCases i j cell r) as [Hlo Hhi]; [done..|].
  split_and!; [done..|]. by eapply Qle_trans.
Qed.

Lemma range_spans_the_scanned_rates_witness :
  let m := calculateConcurrence [caseC1; caseC2] ["A"; "B"] in
  ((scaleRange m 2 1).1 <= 1 # 2)%Q ∧ (1 # 2 <= (scaleRange m 2 1).2)%Q
  ∧ ((scaleRange m 2 1).1 <= (scaleRange m 2 1).2)%Q.
Proof.
  intros m.
  apply (range_spans_the_scanned_rates m 2 1 0 1
           {| agreed := 1; total := 2; rate := Some (1 # 2)%Q |} (1 # 2)%Q);
    [lia|lia|lia|vm_compute; reflexivity|reflexivity|simpl; lia].
Defined.

(** X20. In the view of any dataset and filter, a cell that is drawn with
    the color of its rate is off the diagonal, has a positive total that
    reaches [minCases], and its rate is [agreed / total] and lies within the
    range given to the color scale. *)
Theorem colored_cells_lie_within_the_scale (data : Dataset) (flt : Filter)
    (i j : nat) (cell : Cell) (lo hi r : Q) :
  let view := renderMatrix data flt in
  range view = Some (lo, hi) →
  cellAt (matrix view) i j = Some cell →
  cellFill i j cell (minCases flt) hi = FillRate r →
  i ≠ j ∧ 0 < total cell ∧ minCases flt ≤ total cell ∧
  r = Qmake (agreed cell) (Z.to_pos (total cell)) ∧
  (lo <= r)%Q ∧ (r <= hi)%Q.
Proof.
  intros view. unfold view, renderMatrix. cbn [range matrix].
  set (cs := filterCases data (yearStart flt) (yearEnd flt)).
  set (js := getActiveJustices data (selectedJustices flt) cs).
  intros Hrange Hcell Hfill.
  assert ((lo, hi) = scaleRange (calculateConcurrence cs js) (length js) (minCases flt))
    as Hr.
  { destruct js; [done|]. by injection Hrange. }
  assert ((i < length js)%nat ∧ (j < length js)%nat) as [Hi Hj].
  { rewrite cellAt_calculateConcurrence in Hcell. by destruct (decide _). }
  assert (rate cell = if bool_decide (0 < total cell)
                      then Some (Qmake (agreed cell) (Z.to_pos (total cell)))
                      else None) as Hrate.
  { rewrite cellAt_calculateConcurrence in Hcell.
    destruct (decide _); [|done]. by injection Hcell as <-. }
  unfold cellFill in Hfill.
  destruct (decide (i = j)) as [Heq|Hij];
    [by rewrite bool_decide_eq_true_2 in Hfill|].
  rewrite bool_decide_eq_false_2 in Hfill by done.
  destruct (rate cell) as [r'|] eqn:Hr'; [|done].
  destruct (decide (total cell < minCases flt)) as [Hlt|Hmin];
    [by rewrite bool_decide_eq_true_2 in Hfill|].
  rewrite bool_decide_eq_false_2 in Hfill by done. injection Hfill as ->.
  destruct (decide (0 < total cell)) as [Hpos|Hnpos];
    [|by rewrite bool_decide_eq_false_2 in Hrate].
  rewrite bool_decide_eq_true_2 in Hrate by done. injection Hrate as ->.
  destruct (scaleRange_contains (calculateConcurrence cs js) (length js)
              (minCases flt) i j cell _ Hi Hj Hij Hcell Hr') as [Hlo Hhi]; [lia|].
  rewrite <- Hr in Hlo, Hhi. split_and!; (done || lia).
Qed.

Lemma colored_cells_lie_within_the_scale_witness :
  range (renderMatrix twoMembers everything) = Some ((1 # 2)%Q, (1 # 2)%Q) ∧
  cellAt (matrix (renderMatrix twoMembers everything)) 0 1
    = Some {| agreed := 1; total := 2; rate := Some (1 # 2)%Q |} ∧
  cellFill 0 1 {| agreed := 1; total := 2; rate := Some (1 # 2)%Q |} 1 (1 # 2)%Q
    = FillRate (1 # 2)%Q ∧
  ((1 # 2 <= 1 # 2)%Q ∧ (1 # 2 <= 1 # 2)%Q).
Proof.
  assert (range (renderMatrix twoMembers everything) = Some ((1 # 2)%Q, (1 # 2)%Q)) as H1
    by (vm_compute; reflexivity).
  assert (cellAt (matrix (renderMatrix twoMembers everything)) 0 1
          = Some {| agreed := 1; total := 2; rate := Some (1 # 2)%Q |}) as H2
    by (vm_compute; reflexivity).
  assert (cellFill 0 1 {| agreed := 1; total := 2; rate := Some (1 # 2)%Q |}
            (minCases everything) (1 # 2)%Q = FillRate (1 # 2)%Q) as H3
    by (vm_compute; reflexivity).
  split; [exact H1|]. split; [exact H2|]. split; [exact H3|].
  destruct (colored_cells_lie_within_the_scale twoMembers everything 0 1 _ _ _ _ H1 H2 H3)
    as (_ & _ & _ & _ & Hlo & Hhi).
  split; [exact Hlo|exact Hhi].
Defined.

End scale_further.

(** ** The controls: counts, check boxes and sliders *)

Section controls.
Import JS App Tally Controls Vocabulary Samples.

Lemma nextCount_ext inheritedText (counts counts' : gmap string CountValue) j :
  counts !! j = counts' !! j →
  nextCount inheritedText counts j = nextCount inheritedText counts' j.
Proof. unfold nextCount. by intros ->. Qed.

Lemma lookup_count_keys inheritedText (ks : list string)
    (counts : gmap string CountValue) j :
  NoDup ks →
  foldl (λ counts justice,
           setProperty justice (nextCount inheritedText counts justice) counts)
    counts ks !! j
  = if decide (j ∈ ks ∧ j ≠ "__proto__")
    then Some (nextCount inheritedText counts j) else counts !! j.
Proof.
  intros Hnd. revert counts. induction Hnd as [|k ks Hk Hnd IH]; intros counts.
  - cbn [foldl]. rewrite decide_False; [done|].
    intros [Hin _]. by apply elem_of_nil in Hin.
  - cbn [foldl]. rewrite IH, lookup_setProperty.
    destruct (decide (j = k)) as [->|Hne].
    + rewrite (decide_False (P := k ∈ ks ∧ _)) by tauto.
      destruct (decide (k = "__proto__")) as [Hp|Hp].
      * rewrite !decide_False by tauto. done.
      * rewrite !decide_True; [done|split; [by left|done]|done].
    + assert (setProperty k (nextCount inheritedText counts k) counts !! j = counts !! j)
        as Hsame by (rewrite lookup_setProperty, decide_False; [done|intros [? _]; done]).
      rewrite (nextCount_ext _ _ counts) by done.
      rewrite (decide_False (P := k = j ∧ _)) by (intros [? _]; done).
      destruct (decide (j ∈ ks ∧ j ≠ "__proto__")) as [[Hin Hp]|Hno].
      * rewrite decide_True; [done|split; [by right|done]].
      * rewrite decide_False; [done|].
        intros [[?|?]%elem_of_cons ?]; [done|]. apply Hno. done.
Qed.

Lemma participations_cons c (cs : list Case) j :
  participations (c :: cs) j
  = (if decide (is_Some (votes c !! j)) then 1 else 0) + participations cs j.
Proof.
  unfold participations. rewrite filter_cons.
  destruct (decide _); simpl; lia.
Qed.

Lemma participations_nonneg (cs : list Case) j : 0 ≤ participations cs j.
Proof. unfold participations. lia. Qed.

Lemma lookup_count_cases_proto inheritedText (cs : list Case)
    (counts : gmap string CountValue) :
  counts !! "__proto__" = None →
  foldl (λ counts c,
           foldl (λ counts justice,
                    setProperty justice (nextCount inheritedText counts justice) counts)
             counts (keys (votes c)))
    counts cs !! "__proto__" = None.
Proof.
  revert counts. induction cs as [|c cs IH]; intros counts Hc; [done|].
  cbn [foldl]. apply IH.
  rewrite lookup_count_keys by apply NoDup_keys.
  rewrite decide_False; [done|]. intros [_ ?]. done.
Qed.

Lemma lookup_count_cases_own inheritedText (cs : list Case)
    (counts : gmap string CountValue) j (n0 : Z) :
  j ∉ objectPrototypeNames → 0 ≤ n0 →
  counts !! j = (if decide (n0 = 0) then None else Some (countNumber n0)) →
  foldl (λ counts c,
           foldl (λ counts justice,
                    setProperty justice (nextCount inheritedText counts justice) counts)
             counts (keys (votes c)))
    counts cs !! j
  = if decide (n0 + participations cs j = 0) then None
    else Some (countNumber (n0 + participations cs j)).
Proof.
  intros Hown. revert counts n0.
  induction cs as [|c cs IH]; intros counts n0 Hn0 Hc.
  - cbn [foldl]. change (participations [] j) with 0. rewrite Z.add_0_r. done.
  - cbn [foldl]. rewrite participations_cons.
    pose proof (participations_nonneg cs j).
    assert (j ≠ "__proto__") as Hp.
    { intros ->. apply Hown. vm_compute. repeat (try (left; done); right). }
    destruct (decide (j ∈ keys (votes c))) as [Hin|Hnin].
    + rewrite (decide_True (P := is_Some (votes c !! j))) by (by apply elem_of_keys).
      rewrite (IH _ (n0 + 1)); [|lia|].
      * replace (n0 + 1 + participations cs j) with (n0 + (1 + participations cs j)) by lia.
        done.
      * rewrite lookup_count_keys by apply NoDup_keys.
        rewrite decide_True by done. rewrite (decide_False (P := n0 + 1 = 0)) by lia.
        f_equal. unfold nextCount. rewrite Hc.
        destruct (decide (n0 = 0)) as [->|]; [|done].
        by rewrite bool_decide_eq_false_2.
    + rewrite (decide_False (P := is_Some (votes c !! j)))
        by (by rewrite <- elem_of_keys).
      rewrite Z.add_0_l. apply IH; [done|].
      rewrite lookup_count_keys by apply NoDup_keys.
      rewrite decide_False; [done|]. tauto.
Qed.

Lemma appendOnes_snoc (s : string) (n : nat) :
  appendOnes s (S n) = appendOnes s n +:+ "1".
Proof.
  revert s. induction n as [|n IH]; intros s; [done|].
  change (appendOnes s (S (S n))) with (appendOnes (s +:+ "1") (S n)).
  by rewrite IH.
Qed.

Lemma append_one_nonempty (s : string) : s +:+ "1" ≠ EmptyString.
Proof. by destruct s. Qed.

Lemma lookup_count_cases_inherited inheritedText (cs : list Case)
    (counts : gmap string CountValue) j (n0 : nat) :
  j ∈ objectPrototypeNames → j ≠ "__proto__" →
  counts !! j = (if decide (n0 = 0%nat) then None
                 else Some (countText (appendOnes (inheritedText j) n0))) →
  foldl (λ counts c,
           foldl (λ counts justice,
                    setProperty justice (nextCount inheritedText counts justice) counts)
             counts (keys (votes c)))
    counts cs !! j
  = if decide (n0 + Z.to_nat (participations cs j) = 0)%nat then None
    else Some (countText (appendOnes (inheritedText j)
                            (n0 + Z.to_nat (participations cs j)))).
Proof.
  intros Hin Hp. revert counts n0.
  induction cs as [|c cs IH]; intros counts n0 Hc.
  - cbn [foldl]. change (participations [] j) with 0.
    change (Z.to_nat 0) with 0%nat. rewrite Nat.add_0_r. done.
  - cbn [foldl]. rewrite participations_cons.
    pose proof (participations_nonneg cs j).
    destruct (decide (j ∈ keys (votes c))) as [Hkey|Hnkey].
    + rewrite (decide_True (P := is_Some (votes c !! j))) by (by apply elem_of_keys).
      rewrite (IH _ (S n0)).
      * replace (n0 + Z.to_nat (1 + participations cs j))%nat
          with (S n0 + Z.to_nat (participations cs j))%nat by lia.
        done.
      * rewrite lookup_count_keys by apply NoDup_keys.
        rewrite decide_True by done. rewrite (decide_False (P := S n0 = 0%nat)) by lia.
        f_equal. unfold nextCount. rewrite Hc.
        destruct (decide (n0 = 0%nat)) as [->|Hn0].
        -- by rewrite bool_decide_eq_true_2.
        -- rewrite appendOnes_snoc.
           rewrite bool_decide_eq_false_2; [done|].
           destruct n0 as [|n0]; [done|]. rewrite appendOnes_snoc.
           apply append_one_nonempty.
    + rewrite (decide_False (P := is_Some (votes c !! j)))
        by (by rewrite <- elem_of_keys).
      rewrite Z.add_0_l. apply IH.
      rewrite lookup_count_keys by apply NoDup_keys.
      rewrite decide_False; [done|]. tauto.
Qed.

(** X21. [countCasesPerJustice] holds no entry for a justice without a
    vote in the given cases, and none under the name [__proto__]. A justice
    whose identifier is not a name of [Object.prototype] is mapped to the
    number of cases in which it has a vote. For a name of [Object.prototype]
    other than [__proto__] the entry is not a number: it is the text of the
    inherited property followed by one digit 1 for each such case. *)
Theorem counts_are_participations (inheritedText : string → string)
    (cs : list Case) (j : string) :
  countCasesPerJustice inheritedText cs !! j
  = if decide (participations cs j = 0 ∨ j = "__proto__") then None
    else if decide (j ∈ objectPrototypeNames)
         then Some (countText (appendOnes (inheritedText j)
                                 (Z.to_nat (participations cs j))))
         else Some (countNumber (participations cs j)).
Proof.
  unfold countCasesPerJustice. pose proof (participations_nonneg cs j).
  destruct (decide (j = "__proto__")) as [->|Hp].
  - rewrite decide_True by auto. by apply lookup_count_cases_proto.
  - destruct (decide (j ∈ objectPrototypeNames)) as [Hin|Hown].
    + rewrite (lookup_count_cases_inherited _ _ _ _ 0) by done.
      rewrite Nat.add_0_l.
      destruct (decide (participations cs j = 0)) as [Hz|Hnz].
      * rewrite Hz. rewrite decide_True by done. rewrite decide_True by auto. done.
      * rewrite decide_False by lia. rewrite decide_False by tauto. done.
    + rewrite (lookup_count_cases_own _ _ _ _ 0) by done.
      rewrite Z.add_0_l.
      destruct (decide (participations cs j = 0)) as [Hz|Hnz].
      * rewrite decide_True by auto. done.
      * rewrite decide_False by tauto. done.
Qed.

Lemma full_selection (allJustices : list string) (s : gset string) :
  NoDup allJustices → (∀ j, j ∈ s → j ∈ allJustices) →
  size s = length allJustices → ∀ j, j ∈ allJustices → j ∈ s.
Proof.
  intros Hnd Hsub Hsize j Hj.
  assert (s = list_to_set allJustices) as ->.
  { apply set_subseteq_size_eq.
    - intros x Hx. apply elem_of_list_to_set. auto.
    - rewrite size_list_to_set by done. lia. }
  by apply elem_of_list_to_set.
Qed.

Lemma resetIfAll_spec (allJustices : list string) (s : gset string) :
  NoDup allJustices → (∀ j, j ∈ s → j ∈ allJustices) →
  withinRange allJustices (resetIfAll allJustices s) ∧
  ∀ x, x ∈ allJustices → (isSelected (resetIfAll allJustices s) x ↔ x ∈ s).
Proof.
  intros Hnd Hsub. unfold resetIfAll. case_bool_decide as Hsize; simpl.
  - split; [done|]. intros x Hx. split; [|done]. intros _.
    by eapply full_selection.
  - done.
Qed.

(** X22. Toggling the box of a justice of the list changes the selection
    for that justice only: after checking, the justice is selected; after
    unchecking, it is not; every other justice of the list is selected
    afterwards exactly when it was before. The new selection again names
    only justices of the list, and the window and [minCases] are kept. *)
Theorem toggle_changes_one_box (data : Dataset) (flt : Filter)
    (justiceId : string) (checked : bool) :
  let allJustices := justicesInWindow data flt in
  let flt' := handleJusticeToggle data flt justiceId checked in
  justiceId ∈ allJustices →
  withinRange allJustices (selectedJustices flt) →
  withinRange allJustices (selectedJustices flt') ∧
  (∀ x, x ∈ allJustices →
     (isSelected (selectedJustices flt') x
      ↔ if checked then x = justiceId ∨ isSelected (selectedJustices flt) x
        else x ≠ justiceId ∧ isSelected (selectedJustices flt) x)) ∧
  yearStart flt' = yearStart flt ∧ yearEnd flt' = yearEnd flt ∧
  minCases flt' = minCases flt.
Proof.
  intros allJustices flt' Hj Hwithin.
  assert (NoDup allJustices) as Hnd by apply NoDup_getAllJusticesInRange.
  unfold flt', handleJusticeToggle. cbn [selectedJustices yearStart yearEnd minCases].
  fold allJustices. split_and!; try done.
  - destruct checked, (selectedJustices flt) as [s|]; simpl in *; try done.
    + apply resetIfAll_spec; [done|]. intros x [->%elem_of_singleton|?]%elem_of_union; auto.
    + apply resetIfAll_spec; [done|]. intros x [? _]%elem_of_difference. auto.
    + apply resetIfAll_spec; [done|].
      intros x [_ ?]%elem_of_list_to_set%list_elem_of_filter. done.
  - intros x Hx. destruct checked, (selectedJustices flt) as [s|]; simpl in *.
    + destruct (resetIfAll_spec allJustices ({[justiceId]} ∪ s) Hnd) as [_ H].
      { intros y [->%elem_of_singleton|?]%elem_of_union; auto. }
      rewrite (H x Hx), elem_of_union, elem_of_singleton. done.
    + tauto.
    + destruct (resetIfAll_spec allJustices (s ∖ {[justiceId]}) Hnd) as [_ H].
      { intros y [? _]%elem_of_difference. auto. }
      rewrite (H x Hx), elem_of_difference, elem_of_singleton. tauto.
    + destruct (resetIfAll_spec allJustices
                  (list_to_set (filter (λ j, j ≠ justiceId) allJustices)) Hnd) as [_ H].
      { intros y [_ ?]%elem_of_list_to_set%list_elem_of_filter. done. }
      rewrite (H x Hx), elem_of_list_to_set, list_elem_of_filter. tauto.
Qed.

Lemma toggle_changes_one_box_witness :
  "A" ∈ justicesInWindow twoMembers everything ∧
  selectedJustices (handleJusticeToggle twoMembers everything "A" false) = Some {[ "B" ]} ∧
  (isSelected (selectedJustices (handleJusticeToggle twoMembers everything "A" false)) "B"
   ↔ "B" ≠ "A" ∧ True).
Proof.
  assert ("A" ∈ justicesInWindow twoMembers everything) as H1.
  { assert (justicesInWindow twoMembers everything = ["A"; "B"]) as ->
      by (vm_compute; reflexivity). by left. }
  assert ("B" ∈ justicesInWindow twoMembers everything) as H2.
  { assert (justicesInWindow twoMembers everything = ["A"; "B"]) as ->
      by (vm_compute; reflexivity). right. by left. }
  split; [exact H1|]. split; [vm_compute; reflexivity|].
  destruct (toggle_changes_one_box twoMembers everything "A" false H1 I) as (_ & H & _).
  exact (H "B" H2).
Defined.

Lemma filter_all {A} (P : A → Prop) `{∀ x, Decision (P x)} (l : list A) :
  (∀ x, x ∈ l → P x) → filter P l = l.
Proof.
  induction l as [|x l IH]; intros Hl; [done|].
  rewrite filter_cons, decide_True by (apply Hl; by left).
  f_equal. apply IH. intros y Hy. apply Hl. by right.
Qed.

Lemma filter_ext_in {A} (P Q : A → Prop) `{∀ x, Decision (P x), ∀ x, Decision (Q x)}
    (l : list A) :
  (∀ x, x ∈ l → (P x ↔ Q x)) → filter P l = filter Q l.
Proof.
  induction l as [|x l IH]; intros Hl; [done|].
  rewrite !filter_cons.
  rewrite IH by (intros y Hy; apply Hl; by right).
  destruct (decide (P x)) as [HP|HP], (decide (Q x)) as [HQ|HQ]; try done.
  - exfalso. apply HQ. apply Hl; [by left|done].
  - exfalso. apply HP. apply Hl; [by left|done].
Qed.

(** X23. After any slider event the window is not inverted, the selection
    names only justices of the new window, and dropping the justices that
    left the window changes nothing in the list of active justices of the
    new window. *)
Theorem sliders_keep_window_and_selection_sound (data : Dataset) (flt : Filter)
    (onStart : bool) (startValue endValue : Z) :
  let flt' := updateSliders data flt onStart startValue endValue in
  let cs' := filterCases data (yearStart flt') (yearEnd flt') in
  yearStart flt' ≤ yearEnd flt' ∧
  withinRange (justicesInWindow data flt') (selectedJustices flt') ∧
  getActiveJustices data (selectedJustices flt') cs'
  = getActiveJustices data (selectedJustices flt) cs' ∧
  minCases flt' = minCases flt.
Proof.
  cbv zeta. unfold updateSliders, justicesInWindow.
  set (win := if bool_decide (endValue < startValue)
              then (if onStart then (endValue, endValue) else (startValue, startValue))
              else (startValue, endValue)).
  assert (win.1 ≤ win.2) as Hwin.
  { unfold win. case_bool_decide; [by destruct onStart|simpl; lia]. }
  destruct win as [newStart newEnd]. simpl in Hwin.
  cbn [yearStart yearEnd selectedJustices minCases].
  set (allJustices := getAllJusticesInRange data (filterCases data newStart newEnd)).
  assert (NoDup allJustices) as Hnd by apply NoDup_getAllJusticesInRange.
  split; [done|].
  destruct (selectedJustices flt) as [s|]; [|done].
  set (kept := filter (λ j, j ∈ (list_to_set allJustices : gset string)) s).
  assert (∀ x, x ∈ kept ↔ x ∈ allJustices ∧ x ∈ s) as Hkept.
  { intros x. unfold kept. rewrite elem_of_filter, elem_of_list_to_set. done. }
  case_bool_decide as Hsize.
  - split; [done|]. split; [|done].
    unfold getActiveJustices. fold allJustices.
    symmetry. apply filter_all. intros x Hx.
    assert (x ∈ kept) as Hk.
    { apply (full_selection allJustices kept Hnd); [|by rewrite Hsize, size_list_to_set|done].
      intros y Hy. by apply Hkept in Hy as [? _]. }
    by apply Hkept in Hk as [_ ?].
  - split; [|split; [|done]].
    + simpl. intros x Hx. by apply Hkept in Hx as [? _].
    + unfold getActiveJustices. fold allJustices.
      apply filter_ext_in. intros x Hx. rewrite Hkept. tauto.
Qed.

End controls.
